(** * Incremental span extraction: the streaming processor and its endpoints

    A shallow embedding of
      - [real_world/lib_stream/processor.py]   (class [StreamExtractor]),
      - [real_world/common/extraction_config.py] ([flatten_chat_messages]),
      - [real_world/websocket_server/app.py]   ([ws_endpoint]),
      - [real_world/rest_api/app.py]           ([extract_endpoint]),
    together with the properties of the dedup/merge engine, of the
    incremental extractor and of the session loop.

    Python strings are modelled as [string] (one character per code point
    below 256), Python [int] as [Z], [None]-able values as [option], [dict]
    with string keys as [gmap string _], [set] as [gset].  The external call
    [lx.extract] is an oracle over an abstract world: it may answer
    differently on every call and it may raise. *)

From Stdlib Require Import Ascii String.
From stdpp Require Import gmap strings list.

Set Warnings "-register-all".

Local Open Scope string_scope.
Local Open Scope list_scope.

(** ** The data of [langextract.core.data] *)

Module lx_data.

(** [CharInterval(start_pos, end_pos)]: both positions are optional ints. *)
Record CharInterval := mkCharInterval {
  start_pos : option Z;
  end_pos : option Z
}.

(** [Extraction]: a labelled span; [char_interval] is absent when the
    extraction was not aligned, [attributes] is free-form metadata. *)
Record Extraction := mkExtraction {
  extraction_class : string;
  extraction_text : string;
  char_interval : option CharInterval;
  attributes : option (gmap string string)
}.

(** [AnnotatedDocument]: the answer of one extraction call. *)
Record AnnotatedDocument := mkAnnotatedDocument {
  text : option string;
  extractions : option (list Extraction)
}.

End lx_data.
Export lx_data.

(** The identity key [(extraction_class, extraction_text, start, end)]. *)
Abbreviation Key := (string * string * option Z * option Z)%type.

(** ** [StreamExtractor._merge] and its two local helpers *)

(** [overlaps(a, b)]: half-open intersection; [False] as soon as an interval
    or one of its positions is missing. *)
Definition overlaps (a b : Extraction) : bool :=
  match char_interval a, char_interval b with
  | Some ia, Some ib =>
      match start_pos ia, end_pos ia, start_pos ib, end_pos ib with
      | Some s1, Some e1, Some s2, Some e2 =>
          bool_decide (s1 < e2)%Z && bool_decide (s2 < e1)%Z
      | _, _, _, _ => false
      end
  | _, _ => false
  end.

(** [key(e)]: [s] and [t] are [None] when there is no interval. *)
Definition key (e : Extraction) : Key :=
  let ci := char_interval e in
  let s := match ci with Some i => start_pos i | None => None end in
  let t := match ci with Some i => end_pos i | None => None end in
  (extraction_class e, extraction_text e, s, t).

(** One iteration of [for ex in new], on the pair of locals
    [(merged, existing)]. *)
Definition merge_step (st : list Extraction * gset Key) (ex : Extraction)
    : list Extraction * gset Key :=
  let k := key ex in
  if bool_decide (k ∈ st.2) then st
  else if existsb (overlaps ex) st.1 then st
  else (st.1 ++ [ex], st.2 ∪ {[ k ]}).

(** [_merge(first, new)]: [merged = list(first)], [existing] the set of its
    keys, then the loop; the result is [merged]. *)
Definition _merge (first new : list Extraction) : list Extraction :=
  (foldl merge_step (first, list_to_set (key <$> first)) new).1.

(** *** The contract of the merge engine, as the specification words it

    A candidate is kept when its key is not among the keys of the result
    built so far and it overlaps no span of that result. *)
Definition keeps (result : list Extraction) (c : Extraction) : bool :=
  bool_decide (key c ∉ (key <$> result))
  && forallb (λ r, negb (overlaps c r)) result.

Fixpoint merge_spec (result candidates : list Extraction) : list Extraction :=
  match candidates with
  | [] => result
  | c :: cs =>
      if keeps result c then merge_spec (result ++ [c]) cs
      else merge_spec result cs
  end.

(** The candidates that [merge_spec] keeps, in input order. *)
Fixpoint kept (result candidates : list Extraction) : list Extraction :=
  match candidates with
  | [] => []
  | c :: cs =>
      if keeps result c then c :: kept (result ++ [c]) cs
      else kept result cs
  end.

(** ** Python strings *)

(** The one-character string of a line feed. *)
Definition NL : string := String "010"%char "".

(** [sep.join(parts)]. *)
Fixpoint str_join (sep : string) (parts : list string) : string :=
  match parts with
  | [] => ""
  | [p] => p
  | p :: ps => p +:+ sep +:+ str_join sep ps
  end.

(** [c.isspace()] for a code point below 256. *)
Definition isspace (a : ascii) : bool :=
  let n := nat_of_ascii a in
  ((9 <=? n)%nat && (n <=? 13)%nat) || ((28 <=? n)%nat && (n <=? 32)%nat)
  || (n =? 133)%nat || (n =? 160)%nat.

Fixpoint lstrip (s : string) : string :=
  match s with
  | String a s' => if isspace a then lstrip s' else s
  | EmptyString => ""
  end.

Definition rstrip (s : string) : string := String.rev (lstrip (String.rev s)).

(** [s.strip()]. *)
Definition strip (s : string) : string := rstrip (lstrip s).

(** [len(s)] as a Python int. *)
Definition len (s : string) : Z := Z.of_nat (String.length s).

(** [x or d] for an optional string [x]: [None] and [""] are falsy. *)
Definition str_or (x : option string) (d : string) : string :=
  match x with
  | Some s => if bool_decide (s = "") then d else s
  | None => d
  end.

(** ** Exceptions, the extraction oracle, and the monad of the methods *)

(** A raised exception: its class and [str(e)]. *)
Record exn := mkExn { exn_class : string; exn_str : string }.

Inductive result (A : Type) : Type :=
  | Ok (a : A)
  | Raise (e : exn).
Arguments Ok {A} a.
Arguments Raise {A} e.

(** Everything outside the object under study: the state of the extraction
    service and the log of the texts submitted to it, oldest first. *)
Record Env (World : Type) := mkEnv {
  world : World;
  calls : list string
}.
Arguments mkEnv {World} _ _.
Arguments world {World} _.
Arguments calls {World} _.

(** The external function [lx.extract], applied to its fixed keyword
    arguments, as a transition on the world. *)
Abbreviation Oracle World :=
  (string → World → result AnnotatedDocument * World).

(** One call of [lx.extract(text_or_documents=txt, ...)]. *)
Definition lx_call {World} (lx_extract : Oracle World) (txt : string)
    (env : Env World) : result AnnotatedDocument * Env World :=
  let r := lx_extract txt (world env) in
  (r.1, mkEnv r.2 (calls env ++ [txt])).

(** State and exceptions: a mutation made before a [raise] stays made. *)
Definition M (σ A : Type) : Type := σ → result A * σ.

Global Instance M_ret {σ} : MRet (M σ) := λ A a s, (Ok a, s).
Global Instance M_bind {σ} : MBind (M σ) := λ A B f m s,
  match m s with
  | (Ok a, s') => f a s'
  | (Raise e, s') => (Raise e, s')
  end.

Definition gets {σ A} (f : σ → A) : M σ A := λ s, (Ok (f s), s).
Definition modify {σ} (f : σ → σ) : M σ unit := λ s, (Ok (), f s).
Definition raise {σ A} (e : exn) : M σ A := λ s, (Raise e, s).

(** [try: m except Exception as e: h e]. *)
Definition try_except {σ A} (m : M σ A) (h : exn → M σ A) : M σ A := λ s,
  match m s with
  | (Raise e, s') => h e s'
  | r => r
  end.

(** ** [class StreamExtractor] *)

(** The fields that [push] and [flush] read or write; the provider settings
    only reach [lx.extract] and live in the oracle. *)
Record StreamExtractor := mkStreamExtractor {
  _max_char_buffer : Z;
  _buffer : list string;
  _transcript : list string;
  _merged : list Extraction
}.

(** [StreamExtractor(max_char_buffer=n)]; the default is 800. *)
Definition StreamExtractor_init (max_char_buffer : Z) : StreamExtractor :=
  mkStreamExtractor max_char_buffer [] [] [].

(** The object together with the outside world. *)
Record Proc (World : Type) := mkProc {
  self : StreamExtractor;
  env : Env World
}.
Arguments mkProc {World} _ _.
Arguments self {World} _.
Arguments env {World} _.

Definition set_buffer (b : list string) (o : StreamExtractor) :=
  mkStreamExtractor (_max_char_buffer o) b (_transcript o) (_merged o).
Definition set_transcript (t : list string) (o : StreamExtractor) :=
  mkStreamExtractor (_max_char_buffer o) (_buffer o) t (_merged o).
Definition set_merged (m : list Extraction) (o : StreamExtractor) :=
  mkStreamExtractor (_max_char_buffer o) (_buffer o) (_transcript o) m.

Definition on_self {World} (f : StreamExtractor → StreamExtractor)
    : M (Proc World) unit :=
  modify (λ p, mkProc (f (self p)) (env p)).

(** [sum(len(c) for c in buffer)]. *)
Definition pending_size (buffer : list string) : Z :=
  foldr (λ c acc, (len c + acc)%Z) 0%Z buffer.

Section processor.
Context {World : Type}.
Variable lx_extract : Oracle World.

(** [self._extract_now(text)]. *)
Definition _extract_now (txt : string) : M (Proc World) AnnotatedDocument :=
  λ p, let r := lx_call lx_extract txt (env p) in (r.1, mkProc (self p) r.2).

(** The tail shared by [push] and [flush]: extract over the whole
    transcript, compute the delta by key against the prior merged list,
    merge, clear the buffer; the value is [delta]. *)
Definition extract_and_merge : M (Proc World) (list Extraction) :=
  transcript ← gets (λ p, _transcript (self p));
  let full_text := str_join NL transcript in
  doc ← _extract_now full_text;
  let new_list := default [] (extractions doc) in
  merged ← gets (λ p, _merged (self p));
  let prev_keys : gset Key := list_to_set (key <$> merged) in
  let delta := filter (λ e, key e ∉ prev_keys) new_list in
  on_self (set_merged (_merge merged new_list));;
  on_self (set_buffer []);;
  mret delta.

(** [push(chunk)]; the iterator it returns is modelled by the list of the
    items it yields (none, or the one non-empty delta). *)
Definition push (chunk : string) : M (Proc World) (list (list Extraction)) :=
  if bool_decide (chunk = "") then mret []
  else
    on_self (λ o, set_buffer (_buffer o ++ [chunk]) o);;
    on_self (λ o, set_transcript (_transcript o ++ [chunk]) o);;
    o ← gets self;
    if bool_decide (pending_size (_buffer o) < _max_char_buffer o `div` 2)%Z
    then mret []
    else
      delta ← extract_and_merge;
      mret (match delta with [] => [] | _ => [delta] end).

(** [flush()]. *)
Definition flush : M (Proc World) (list Extraction) :=
  buffer ← gets (λ p, _buffer (self p));
  match buffer with
  | [] => mret []
  | _ => extract_and_merge
  end.

End processor.

(** ** [flatten_chat_messages] *)

(** One iteration of [for m in messages], on the local [lines]. *)
Definition flatten_step (lines : list string) (m : gmap string string)
    : list string :=
  let role := str_or (m !! "role") "user" in
  let content := strip (str_or (m !! "content") "") in
  if bool_decide (content = "") then lines
  else lines ++ [role +:+ ": " +:+ content].

Definition flatten_chat_messages (messages : list (gmap string string))
    : string :=
  str_join NL (foldl flatten_step [] messages).

(** The flattening as the specification words it: one ["role: content"] line
    per turn whose trimmed content is not blank, a missing role being
    ["user"]. *)
Definition turn_line (m : gmap string string) : option string :=
  let content := strip (default "" (m !! "content")) in
  if bool_decide (content = "") then None
  else
    let role := match m !! "role" with
                | None | Some "" => "user"
                | Some r => r
                end in
    Some (role +:+ ": " +:+ content).

Definition flatten_spec (messages : list (gmap string string)) : string :=
  str_join NL (omap turn_line messages).

(** The JSON shape of one span, the same in both endpoints
    ([ExtractionSpan] in the REST application, a dict in the socket one). *)
Record ExtractionSpan := mkExtractionSpan {
  span_class : string;
  span_text : string;
  char_start : option Z;
  char_end : option Z;
  span_attributes : option (gmap string string)
}.

(** The body of the loop [for ext in doc.extractions or []]. *)
Definition to_span (ext : Extraction) : ExtractionSpan :=
  let ci := char_interval ext in
  mkExtractionSpan (extraction_class ext) (extraction_text ext)
    (match ci with Some i => start_pos i | None => None end)
    (match ci with Some i => end_pos i | None => None end)
    (attributes ext).

Definition spans_of (doc : AnnotatedDocument) : list ExtractionSpan :=
  to_span <$> default [] (extractions doc).

(** ** The socket application *)

Module websocket_server.

(** A value produced by [json.loads] (numbers are integers here). *)
Inductive pyval :=
  | PNone
  | PBool (b : bool)
  | PInt (n : Z)
  | PStr (s : string)
  | PList (l : list pyval)
  | PDict (d : gmap string pyval).

(** An inbound text frame, seen through [json.loads]. *)
Inductive Inbound :=
  | BadJson                      (* [json.JSONDecodeError] *)
  | Parsed (data : pyval).

(** An outbound frame: [{"type", "message"}] (the message is absent in
    [eot_ack]) or [{"type", "text", "extractions"}]. *)
Inductive Outbound :=
  | Note (type : string) (message : option string)
  | Payload (type : string) (text : option string)
            (extractions : list ExtractionSpan).

(** Python truth value. *)
Definition truthy (v : pyval) : bool :=
  match v with
  | PNone => false
  | PBool b => b
  | PInt n => negb (n =? 0)%Z
  | PStr s => negb (bool_decide (s = ""))
  | PList l => match l with [] => false | _ => true end
  | PDict d => negb (size d =? 0)%nat
  end.

(** [v == s] for a string [s]: only an equal string is equal. *)
Definition eq_str (v : pyval) (s : string) : bool :=
  match v with
  | PStr s' => bool_decide (s' = s)
  | _ => false
  end.

(** What the loop owns: the history of the conversation and the frames
    sent so far, oldest first. *)
Record Session (World : Type) := mkSession {
  conversation_messages : list (gmap string string);
  sent : list Outbound;
  ws_env : Env World
}.
Arguments mkSession {World} _ _ _.
Arguments conversation_messages {World} _.
Arguments sent {World} _.
Arguments ws_env {World} _.

Definition AttributeError (what : string) : exn :=
  mkExn "AttributeError" what.

Section session.
Context {World : Type}.
Variable lx_extract : Oracle World.

Definition send_text (f : Outbound) : M (Session World) unit :=
  modify (λ s, mkSession (conversation_messages s) (sent s ++ [f]) (ws_env s)).

Definition set_messages (ms : list (gmap string string))
    : M (Session World) unit :=
  modify (λ s, mkSession ms (sent s) (ws_env s)).

(** [data.get(k)]: only a dict has [get]; the default is [None]. *)
Definition data_get (data : pyval) (k : string)
    : M (Session World) pyval :=
  match data with
  | PDict d => mret (default PNone (d !! k))
  | _ => raise (AttributeError "get")
  end.

(** [(v or d).strip()]: only a string has [strip]. *)
Definition or_strip (v : pyval) (d : string) : M (Session World) string :=
  if truthy v then
    match v with
    | PStr s => mret (strip s)
    | _ => raise (AttributeError "strip")
    end
  else mret (strip d).

(** [_extract_single_message(text, ...)], awaited. *)
Definition _extract_single_message (txt : string)
    : M (Session World) AnnotatedDocument :=
  λ s, let r := lx_call lx_extract txt (ws_env s) in
       (r.1, mkSession (conversation_messages s) (sent s) r.2).

(** The body of [while True] for one received frame. *)
Definition on_frame (aggregate : bool) (fr : Inbound)
    : M (Session World) unit :=
  match fr with
  | BadJson => send_text (Note "error" (Some "invalid json"))
  | Parsed data =>
      eot ← data_get data "eot";
      ty ← data_get data "type";
      if truthy eot || eq_str ty "eot" then
        (if aggregate then set_messages [] else mret () : M (Session World) unit);;
        send_text (Note "eot_ack" None)
      else
        r ← data_get data "role";
        r ← or_strip r "user";
        let role := if bool_decide (r = "") then "user" else r in
        c ← data_get data "content";
        content ← or_strip c "";
        if bool_decide (content = "") then
          send_text (Note "warn" (Some "empty content"))
        else
          send_text (Note "status" (Some "processing"));;
          try_except
            (doc ← (if aggregate then
                      ms ← gets (σ := Session World) conversation_messages;
                      set_messages
                        (ms ++ [ {[ "role" := role; "content" := content ]} ]);;
                      ms ← gets (σ := Session World) conversation_messages;
                      _extract_single_message (flatten_chat_messages ms)
                    else _extract_single_message content);
             send_text
               (Payload (if aggregate then "aggregate_result" else "result")
                        (lx_data.text doc) (spans_of doc)))
            (λ e, send_text (Note "error" (Some (exn_str e))))
  end.

(** The frames received until the peer disconnects; an exception that
    leaves [on_frame] ends the loop. *)
Fixpoint serve (aggregate : bool) (frames : list Inbound)
    : M (Session World) unit :=
  match frames with
  | [] => mret ()
  | fr :: rest => on_frame aggregate fr;; serve aggregate rest
  end.

(** [ws_endpoint]: greet, then serve. *)
Definition ws_endpoint (model_id : string) (aggregate : bool)
    (frames : list Inbound) : M (Session World) unit :=
  send_text
    (Note "info"
       (Some ("connected; model_id=" +:+ model_id +:+ "; aggregate="
              +:+ (if aggregate then "True" else "False"))));;
  serve aggregate frames.

End session.

(** The session at [websocket.accept()]. *)
Definition connect {World} (e : Env World) : Session World :=
  mkSession [] [] e.

End websocket_server.

(** ** The request-response application *)

Module rest_api.

Record Message := mkMessage { role : string; content : string }.

Record ExtractRequest := mkExtractRequest {
  messages : list Message;
  model_id : string;
  use_schema_constraints : bool;
  max_char_buffer : Z;
  model_url : option string
}.

Record ExtractResponse := mkExtractResponse {
  resp_model_id : string;
  resp_text : string;
  resp_extractions : list ExtractionSpan
}.

Record HTTPException := mkHTTPException {
  status_code : Z;
  detail : string
}.

(** [m.model_dump()]. *)
Definition model_dump (m : Message) : gmap string string :=
  {[ "role" := role m; "content" := content m ]}.

Section endpoint.
Context {World : Type}.
Variable lx_extract : Oracle World.

(** [extract_endpoint(payload)]: [inl] is the raised [HTTPException]. *)
Definition extract_endpoint (payload : ExtractRequest) (e : Env World)
    : (HTTPException + ExtractResponse) * Env World :=
  match messages payload with
  | [] => (inl (mkHTTPException 400 "messages must be provided"), e)
  | _ =>
      let txt := flatten_chat_messages (model_dump <$> messages payload) in
      match lx_call lx_extract txt e with
      | (Raise ex, e') => (inl (mkHTTPException 500 (exn_str ex)), e')
      | (Ok doc, e') =>
          (inr (mkExtractResponse (model_id payload)
                  (str_or (lx_data.text doc) txt) (spans_of doc)), e')
      end
  end.

End endpoint.

End rest_api.

(** ** Test doubles and concrete runs *)

(** A scripted extraction service: each call consumes the next canned
    answer, whatever the text (like the patched [lx.extract] of the tests). *)
Definition scripted : Oracle (list (result AnnotatedDocument)) :=
  λ _ w, match w with
         | r :: w' => (r, w')
         | [] => (Raise (mkExn "StopIteration" ""), [])
         end.

Definition span (cls txt : string) (s e : Z) : Extraction :=
  mkExtraction cls txt (Some (mkCharInterval (Some s) (Some e))) None.

Definition answer (xs : list Extraction) : result AnnotatedDocument :=
  Ok (mkAnnotatedDocument None (Some xs)).

Definition span_AB : Extraction := span "word" "AB" 0 2.
Definition span_BC : Extraction := span "word" "BC" 1 3.

(** An extractor with [max_char_buffer=2] (every non-empty push triggers),
    facing a service that first sees ["AB"] and from then on also ["BC"]. *)
Definition overlap_run_start : Proc (list (result AnnotatedDocument)) :=
  mkProc (StreamExtractor_init 2)
    (mkEnv [answer [span_AB]; answer [span_AB; span_BC];
            answer [span_AB; span_BC]] []).

(** The deltas handed to the caller by a sequence of operations, in order,
    and the state reached; a raising operation ends the run. *)
Inductive Op := Push (chunk : string) | Flush.

Definition run_op {World} (lx : Oracle World) (op : Op)
    : M (Proc World) (list Extraction) :=
  match op with
  | Push c => ds ← push lx c; mret (concat ds)
  | Flush => flush lx
  end.

Fixpoint run_ops {World} (lx : Oracle World) (ops : list Op)
    : M (Proc World) (list (list Extraction)) :=
  match ops with
  | [] => mret []
  | op :: rest => d ← run_op lx op; ds ← run_ops lx rest; mret (d :: ds)
  end.

(** Everything emitted by a run. *)
Definition emitted {World} (lx : Oracle World) (ops : list Op)
    (p : Proc World) : list Extraction :=
  match (run_ops lx ops p).1 with
  | Ok ds => concat ds
  | Raise _ => []
  end.

(** ** Vocabulary of the statements *)

(** The object once [chunk] has been appended to buffer and transcript. *)
Definition appended (chunk : string) (o : StreamExtractor) : StreamExtractor :=
  mkStreamExtractor (_max_char_buffer o) (_buffer o ++ [chunk])
    (_transcript o ++ [chunk]) (_merged o).

(** The pending size, [chunk] included, is still below half the threshold
    (the integer half: [max_char_buffer // 2]). *)
Definition below_half (o : StreamExtractor) (chunk : string) : Prop :=
  (pending_size (_buffer o ++ [chunk]) < _max_char_buffer o `div` 2)%Z.

Global Instance below_half_dec o chunk : Decision (below_half o chunk) :=
  Z_lt_dec _ _.

(** The merged-set invariant: distinct keys, pairwise disjoint intervals. *)
Fixpoint pairwise_disjoint (l : list Extraction) : Prop :=
  match l with
  | [] => True
  | a :: l' => Forall (λ b, overlaps a b = false) l' ∧ pairwise_disjoint l'
  end.

Definition merged_set_ok (l : list Extraction) : Prop :=
  NoDup (key <$> l) ∧ pairwise_disjoint l.

(** *** Frames of the socket protocol *)

Import websocket_server.

(** The frame [{"role": role, "content": content}]. *)
Definition turn (rc : string * string) : Inbound :=
  Parsed (PDict {[ "role" := PStr rc.1; "content" := PStr rc.2 ]}).

(** The role as [on_frame] normalises it:
    [(role or "user").strip() or "user"]. *)
Definition norm_role (role : string) : string :=
  let r := strip (if bool_decide (role = "") then "user" else role) in
  if bool_decide (r = "") then "user" else r.

(** The entry appended to the history for such a frame. *)
Definition turn_message (rc : string * string) : gmap string string :=
  {[ "role" := norm_role rc.1; "content" := strip rc.2 ]}.

(** A frame carries content when its trimmed content is not blank. *)
Definition has_content (rc : string * string) : Prop := strip rc.2 ≠ "".

(** The reset test of [on_frame] on a parsed dict:
    [data.get("eot") or data.get("type") == "eot"]. *)
Definition is_reset (d : gmap string pyval) : bool :=
  truthy (default PNone (d !! "eot"))
  || eq_str (default PNone (d !! "type")) "eot".

Definition processing : Outbound := Note "status" (Some "processing").

(** The span lists of the result frames among the frames sent. *)
Definition payload_spans (f : Outbound) : list (list ExtractionSpan) :=
  match f with
  | Payload _ _ xs => [xs]
  | Note _ _ => []
  end.

(** What the result frames of an aggregate session would carry if each were
    the delta of the answer merged into the spans accepted so far in the
    session (the reading of the session table of the specification). *)
Fixpoint delta_payloads (merged : list Extraction)
    (answers : list (list Extraction)) : list (list ExtractionSpan) :=
  match answers with
  | [] => []
  | new_list :: rest =>
      (to_span <$> kept merged new_list)
      :: delta_payloads (_merge merged new_list) rest
  end.

(** That reading, as a statement about every aggregate session fed with
    turns that carry content and a service that answers each of them. *)
Definition aggregate_results_are_deltas : Prop :=
  ∀ (turns : list (string * string)) (answers : list (list Extraction)),
    Forall has_content turns → length answers = length turns →
    let s := (serve scripted true (turn <$> turns)
                (connect (mkEnv (answer <$> answers) []))).2 in
    sent s ≫= payload_spans = delta_payloads [] answers.

(** *** Further concrete states *)

Definition boom : exn := mkExn "RuntimeError" "boom".

(** Threshold 10 and nothing pending: a three-character push stays below
    the trigger. *)
Definition roomy_start : Proc (list (result AnnotatedDocument)) :=
  mkProc (StreamExtractor_init 10) (mkEnv [answer [span_AB]] []).

(** Threshold 10 with ["AB"] pushed and still pending. *)
Definition pending_start : Proc (list (result AnnotatedDocument)) :=
  mkProc (mkStreamExtractor 10 ["AB"] ["AB"] []) (mkEnv [answer [span_AB]] []).

(** The same two situations in front of a service whose next call raises. *)
Definition failing_push_start : Proc (list (result AnnotatedDocument)) :=
  mkProc (StreamExtractor_init 2) (mkEnv [Raise boom] []).

Definition failing_flush_start : Proc (list (result AnnotatedDocument)) :=
  mkProc (mkStreamExtractor 10 ["AB"] ["AB"] []) (mkEnv [Raise boom] []).

(** An aggregate session that has already served one turn. *)
Definition served_once : Session (list (result AnnotatedDocument)) :=
  (serve scripted true [turn ("user", "first-1")]
     (connect (mkEnv [answer [span_AB]; answer [span_AB]] []))).2.

Definition eot_dict : gmap string pyval := {[ "eot" := PBool true ]}.

Definition no_turns : rest_api.ExtractRequest :=
  rest_api.mkExtractRequest [] "gemini-2.5-flash" true 1000 None.

Definition two_turns : rest_api.ExtractRequest :=
  rest_api.mkExtractRequest
    [rest_api.mkMessage "user" "first"; rest_api.mkMessage "assistant" "  "]
    "gemini-2.5-flash" true 1000 None.

(** ** Further code of the same files *)

(** *** [StreamExtractor.__init__]: the provider parameters *)

(** A value of the [language_model_params] dict ([Any] in the source): the
    kinds the constructor itself stores, and any other JSON-like value; the
    type [F] stands for Python floats, which are only stored here. *)
Inductive anyval (F : Type) :=
  | VNone
  | VFloat (x : F)
  | VStr (s : string)
  | VOther (v : pyval).
Arguments VNone {F}.
Arguments VFloat {F} x.
Arguments VStr {F} s.
Arguments VOther {F} v.

(** [d.setdefault(k, v)]: a key that is present keeps its value. *)
Definition setdefault {V} (k : string) (v : V) (d : gmap string V)
    : gmap string V :=
  match d !! k with
  | Some _ => d
  | None => <[ k := v ]> d
  end.

(** The value of [self._lm_params] at the end of [__init__]. *)
Definition init_lm_params {F} (temperature : option F)
    (model_url : option string)
    (language_model_params : option (gmap string (anyval F)))
    : gmap string (anyval F) :=
  let d := default ∅ language_model_params in
  let d := match temperature with
           | Some t => setdefault "temperature" (VFloat t) d
           | None => d
           end in
  match model_url with
  | Some u =>
      if bool_decide (u = "") then d
      else setdefault "base_url" (VStr u) (setdefault "model_url" (VStr u) d)
  | None => d
  end.

(** *** [StreamExtractor.arun_async] *)

(** [if delta: yield delta] over a list of deltas. *)
Definition nonempty_deltas (ds : list (list Extraction)) : list (list Extraction) :=
  filter (λ d, d ≠ []) ds.

Section arun.
Context {World : Type}.
Variable lx_extract : Oracle World.

(** [arun_async(aiter)] on a stream that delivers [chunks] and ends: the
    deltas yielded, in order, the exception that ended the generator if one
    did, and the state left behind. *)
Fixpoint arun_async (chunks : list string) (p : Proc World)
    : list (list Extraction) * option exn * Proc World :=
  match chunks with
  | chunk :: rest =>
      match push lx_extract chunk p with
      | (Ok delta_lists, p') =>
          let r := arun_async rest p' in
          (nonempty_deltas delta_lists ++ r.1.1, r.1.2, r.2)
      | (Raise e, p') => ([], Some e, p')
      end
  | [] =>
      match flush lx_extract p with
      | (Ok final_delta, p') => (nonempty_deltas [final_delta], None, p')
      | (Raise e, p') => ([], Some e, p')
      end
  end.

End arun.

(** *** [_env_api_key_for] (the same function in both applications) *)

(** [s.startswith(prefix)]. *)
Definition startswith (s prefix : string) : bool := String.prefix prefix s.

(** [os.getenv(k1) or os.getenv(k2)] on the process environment. *)
Definition getenv_or (environ : gmap string string) (k1 k2 : string)
    : option string :=
  match environ !! k1 with
  | Some v => if bool_decide (v = "") then environ !! k2 else Some v
  | None => environ !! k2
  end.

Definition _env_api_key_for (environ : gmap string string) (model_id : string)
    : gmap string (option string) :=
  if startswith model_id "gemini" then
    {[ "api_key" := getenv_or environ "GEMINI_API_KEY" "LANGEXTRACT_API_KEY" ]}
  else if startswith model_id "gpt" || startswith model_id "o1" then
    {[ "api_key" := getenv_or environ "OPENAI_API_KEY" "LANGEXTRACT_API_KEY" ]}
  else {[ "api_key" := environ !! "LANGEXTRACT_API_KEY" ]}.

(** *** Vocabulary of the further statements *)

(** The fragments that a sequence of operations appends to the transcript. *)
Definition pushed (ops : list Op) : list string :=
  ops ≫= λ op, match op with
               | Push c => if bool_decide (c = "") then [] else [c]
               | Flush => []
               end.

(** The pending fragments are the last fragments of the transcript, and no
    fragment is empty. *)
Definition buffer_ok (o : StreamExtractor) : Prop :=
  _buffer o `suffix_of` _transcript o ∧ "" ∉ _transcript o.

(** An answer whose spans have distinct keys, are pairwise disjoint and
    overlap nothing of the merged list. *)
Definition clean_answer (merged new_list : list Extraction) : Prop :=
  NoDup (key <$> new_list)
  ∧ pairwise_disjoint new_list
  ∧ ∀ c m, c ∈ new_list → m ∈ merged → overlaps c m = false.

(** A value on which [(v or d).strip()] works: falsy, or a string. *)
Definition str_like (v : pyval) : Prop :=
  truthy v = false ∨ ∃ s, v = PStr s.


(** *** Concrete inputs of the further statements *)

Definition span_D : Extraction := span "word" "D" 3 4.


Definition fresh_session : Session (list (result AnnotatedDocument)) :=
  connect (mkEnv [Raise boom; answer [span_AB]] []).

Definition blank_request : rest_api.ExtractRequest :=
  rest_api.mkExtractRequest [rest_api.mkMessage "user" "  "]
    "gemini-2.5-flash" true 1000 None.

Definition only_fallback_key : gmap string string :=
  {[ "LANGEXTRACT_API_KEY" := "k" ]}.

Definition caller_temperature : gmap string (anyval Z) :=
  {[ "temperature" := VFloat 7%Z ]}.

(** *** The failure kind, as the specification words it *)

(** The reading of the failure semantics of the specification: whatever the
    extraction function raises, the exception that leaves [push] or [flush]
    is of a class of its own, [ExtractionFailure], wrapped around the cause
    (so its class is never the class of the cause itself). *)
Definition failures_are_wrapped : Prop :=
  ∀ (p : Proc (list (result AnnotatedDocument))) (op : Op) (e : exn),
    (run_op scripted op p).1 = Raise e →
    exn_class e = "ExtractionFailure".

(** * Properties *)

(** ** The merge engine *)

Lemma overlaps_true_iff (a b : Extraction) :
  overlaps a b = true ↔
  ∃ s1 e1 s2 e2 : Z,
    char_interval a = Some (mkCharInterval (Some s1) (Some e1)) ∧
    char_interval b = Some (mkCharInterval (Some s2) (Some e2)) ∧
    (s1 < e2)%Z ∧ (s2 < e1)%Z.
Proof.
  unfold overlaps. split.
  - destruct (char_interval a) as [[[s1|] [e1|]]|],
      (char_interval b) as [[[s2|] [e2|]]|]; simpl; try discriminate.
    rewrite andb_true_iff, !bool_decide_eq_true. intros [? ?].
    by exists s1, e1, s2, e2.
  - intros (s1 & e1 & s2 & e2 & -> & -> & ? & ?). simpl.
    rewrite andb_true_iff, !bool_decide_eq_true. done.
Qed.

Lemma overlaps_sym (a b : Extraction) : overlaps a b = overlaps b a.
Proof.
  unfold overlaps.
  destruct (char_interval a) as [[[s1|] [e1|]]|],
    (char_interval b) as [[[s2|] [e2|]]|]; simpl; try done.
  apply andb_comm.
Qed.

Lemma overlaps_no_interval (a b : Extraction) :
  char_interval a = None → overlaps a b = false ∧ overlaps b a = false.
Proof.
  intros Ha. rewrite (overlaps_sym b a). unfold overlaps. by rewrite Ha.
Qed.

Lemma keeps_true_iff (result : list Extraction) (c : Extraction) :
  (keeps result c = true) ↔
  ((key c ∉ (key <$> result)) ∧ ∀ r, r ∈ result → overlaps c r = false).
Proof.
  unfold keeps. rewrite andb_true_iff, bool_decide_eq_true, forallb_forall.
  split; intros [Hk Ho]; split; try done.
  - intros r Hr. apply negb_true_iff, Ho. by apply list_elem_of_In.
  - intros r Hr. apply negb_true_iff, Ho. by apply list_elem_of_In.
Qed.

Lemma existsb_overlaps (ex : Extraction) (merged : list Extraction) :
  existsb (overlaps ex) merged = negb (forallb (λ r, negb (overlaps ex r)) merged).
Proof.
  induction merged as [|m ms IH]; simpl; [done|].
  rewrite IH, negb_andb, negb_involutive. done.
Qed.

Lemma merge_step_keeps (merged : list Extraction) (ex : Extraction) :
  merge_step (merged, list_to_set (key <$> merged)) ex =
  if keeps merged ex
  then (merged ++ [ex], list_to_set (key <$> (merged ++ [ex])))
  else (merged, list_to_set (key <$> merged)).
Proof.
  unfold merge_step, keeps. simpl.
  rewrite existsb_overlaps.
  destruct (decide (key ex ∈ key <$> merged)) as [Hin|Hout].
  - rewrite bool_decide_eq_true_2 by (by apply elem_of_list_to_set).
    rewrite (bool_decide_eq_false_2 (key ex ∉ _)); [|by intros H; apply H].
    done.
  - rewrite bool_decide_eq_false_2 by (by rewrite elem_of_list_to_set).
    rewrite (bool_decide_eq_true_2 (key ex ∉ _)); [|done]. simpl.
    destruct (forallb _ merged); simpl; [|done].
    f_equal. rewrite fmap_app, list_to_set_app_L. simpl.
    by rewrite (right_id_L ∅ (∪)).
Qed.

Lemma merge_loop (new merged : list Extraction) :
  foldl merge_step (merged, list_to_set (key <$> merged)) new =
  (merge_spec merged new, list_to_set (key <$> merge_spec merged new)).
Proof.
  revert merged. induction new as [|c cs IH]; intros merged; simpl; [done|].
  rewrite merge_step_keeps. destruct (keeps merged c); apply IH.
Qed.

Lemma merge_spec_kept (candidates result : list Extraction) :
  merge_spec result candidates = result ++ kept result candidates.
Proof.
  revert result. induction candidates as [|c cs IH]; intros result; simpl.
  - by rewrite app_nil_r.
  - destruct (keeps result c); rewrite IH; [|done].
    by rewrite <- app_assoc.
Qed.

Lemma kept_sublist (candidates result : list Extraction) :
  kept result candidates `sublist_of` candidates.
Proof.
  revert result. induction candidates as [|c cs IH]; intros result; simpl.
  - constructor.
  - destruct (keeps result c); [apply sublist_skip|apply sublist_cons]; apply IH.
Qed.

Lemma kept_app (pre post result : list Extraction) :
  kept result (pre ++ post) =
  kept result pre ++ kept (result ++ kept result pre) post.
Proof.
  revert result. induction pre as [|c cs IH]; intros result; simpl.
  - by rewrite app_nil_r.
  - destruct (keeps result c); rewrite IH; [|done].
    simpl. by rewrite <- app_assoc.
Qed.

Lemma _merge_eq (first new : list Extraction) :
  _merge first new = first ++ kept first new.
Proof. unfold _merge. by rewrite merge_loop, merge_spec_kept. Qed.

Lemma pairwise_disjoint_snoc (l : list Extraction) (c : Extraction) :
  pairwise_disjoint l → Forall (λ r, overlaps c r = false) l →
  pairwise_disjoint (l ++ [c]).
Proof.
  induction l as [|a l IH]; simpl; [by auto|].
  intros [Ha Hl] Hc. apply Forall_cons in Hc as [Hca Hcl]. split.
  - apply Forall_app. split; [done|].
    apply Forall_singleton. by rewrite overlaps_sym.
  - by apply IH.
Qed.

(** [_merge] keeps the merged-set invariant. *)
Lemma _merge_merged_set_ok (first new : list Extraction) :
  merged_set_ok first → merged_set_ok (_merge first new).
Proof.
  unfold _merge. rewrite merge_loop. simpl. revert first.
  induction new as [|c cs IH]; intros first Hok; simpl; [done|].
  destruct (keeps first c) eqn:Hk; [|by apply IH].
  apply keeps_true_iff in Hk as [Hkey Hov]. destruct Hok as [Hnd Hpd].
  apply IH. split.
  - rewrite fmap_app. apply NoDup_app. split_and!; [done| |by apply NoDup_singleton].
    intros k Hin Hk. apply list_elem_of_singleton in Hk. by subst.
  - apply pairwise_disjoint_snoc; [done|]. by apply Forall_forall.
Qed.

(** C2: [_merge(accepted, candidates)] is [accepted], in order, followed by
    the candidates, in input order, whose key is not among the keys of the
    result built so far and which overlap no span of that result; two spans
    overlap exactly when both intervals are present and [s1 < e2] and
    [s2 < e1], so a span without interval overlaps nothing. *)
Theorem merge_contract (accepted candidates : list Extraction) :
  _merge accepted candidates = merge_spec accepted candidates
  ∧ _merge accepted candidates = accepted ++ kept accepted candidates
  ∧ kept accepted candidates `sublist_of` candidates
  ∧ (∀ pre c post, candidates = pre ++ c :: post →
       let built := accepted ++ kept accepted pre in
       kept accepted candidates =
         kept accepted pre
         ++ (if keeps built c then [c] else [])
         ++ kept (if keeps built c then built ++ [c] else built) post)
  ∧ (∀ built c, (keeps built c = true) ↔
       ((key c ∉ (key <$> built)) ∧ ∀ r, r ∈ built → overlaps c r = false))
  ∧ (∀ a b, overlaps a b = true ↔
       ∃ s1 e1 s2 e2 : Z,
         char_interval a = Some (mkCharInterval (Some s1) (Some e1)) ∧
         char_interval b = Some (mkCharInterval (Some s2) (Some e2)) ∧
         (s1 < e2)%Z ∧ (s2 < e1)%Z)
  ∧ (∀ a b, char_interval a = None →
       overlaps a b = false ∧ overlaps b a = false).
Proof.
  split_and!.
  - unfold _merge. by rewrite merge_loop.
  - apply _merge_eq.
  - apply kept_sublist.
  - intros pre c post ->. simpl. rewrite kept_app. f_equal. simpl.
    by destruct (keeps _ c).
  - apply keeps_true_iff.
  - apply overlaps_true_iff.
  - apply overlaps_no_interval.
Qed.

(** ** The incremental extractor *)

Lemma len_nonneg (s : string) : (0 ≤ len s)%Z.
Proof. unfold len. lia. Qed.

Lemma pending_size_app (b1 b2 : list string) :
  pending_size (b1 ++ b2) = (pending_size b1 + pending_size b2)%Z.
Proof.
  unfold pending_size. induction b1 as [|c b1 IH]; simpl; [done|].
  rewrite IH. lia.
Qed.

Lemma pending_size_nonneg (b : list string) : (0 ≤ pending_size b)%Z.
Proof.
  unfold pending_size. induction b as [|c b IH]; simpl; [done|].
  pose proof (len_nonneg c). lia.
Qed.

Lemma snoc_neq {A} (l : list A) (x : A) : l ++ [x] ≠ l.
Proof.
  intros H. apply (f_equal length) in H. rewrite length_app in H.
  simpl in H. lia.
Qed.

Section processor_facts.
Context {World : Type}.
Variable lx : Oracle World.
Implicit Types (p : Proc World) (chunk : string).

(** What the shared tail does, by cases on the answer of the service. *)
Lemma extract_and_merge_unfold p :
  extract_and_merge lx p =
  let full_text := str_join NL (_transcript (self p)) in
  let r := lx full_text (world (env p)) in
  let env' := mkEnv r.2 (calls (env p) ++ [full_text]) in
  match r.1 with
  | Ok doc =>
      let new_list := default [] (extractions doc) in
      let prev_keys : gset Key := list_to_set (key <$> _merged (self p)) in
      (Ok (filter (λ e, key e ∉ prev_keys) new_list),
       mkProc (mkStreamExtractor (_max_char_buffer (self p)) []
                 (_transcript (self p))
                 (_merge (_merged (self p)) new_list)) env')
  | Raise e => (Raise e, mkProc (self p) env')
  end.
Proof.
  unfold extract_and_merge, _extract_now, lx_call, mbind, M_bind, gets. simpl.
  destruct (lx _ _) as [[doc|e] w']; done.
Qed.

Lemma push_empty p : push lx "" p = (Ok [], p).
Proof. done. Qed.

Lemma push_unfold p chunk :
  chunk ≠ "" →
  push lx chunk p =
  if decide (below_half (self p) chunk)
  then (Ok [], mkProc (appended chunk (self p)) (env p))
  else
    match extract_and_merge lx (mkProc (appended chunk (self p)) (env p)) with
    | (Ok delta, p') => (Ok (match delta with [] => [] | _ => [delta] end), p')
    | (Raise e, p') => (Raise e, p')
    end.
Proof.
  intros Hne. unfold push. rewrite bool_decide_eq_false_2 by done.
  unfold mbind, M_bind, on_self, modify, gets, below_half. simpl.
  destruct (decide _) as [Hlt|Hge].
  - by rewrite bool_decide_eq_true_2.
  - rewrite bool_decide_eq_false_2 by done.
    by destruct (extract_and_merge _ _) as [[d|e] p'].
Qed.

Lemma flush_unfold p :
  flush lx p =
  match _buffer (self p) with
  | [] => (Ok [], p)
  | _ => extract_and_merge lx p
  end.
Proof.
  unfold flush, mbind, M_bind, gets. simpl. by destruct (_buffer (self p)).
Qed.

Lemma extract_and_merge_calls p :
  calls (env (extract_and_merge lx p).2) =
  calls (env p) ++ [str_join NL (_transcript (self p))].
Proof.
  rewrite extract_and_merge_unfold. simpl.
  by destruct (lx _ _) as [[doc|e] w'].
Qed.

Lemma extract_and_merge_ok p delta p' :
  extract_and_merge lx p = (Ok delta, p') →
  _buffer (self p') = [] ∧ _transcript (self p') = _transcript (self p).
Proof.
  rewrite extract_and_merge_unfold. simpl.
  destruct (lx _ _) as [[doc|e] w']; simpl; [|done].
  by intros [= <- <-].
Qed.

(** The merged list keeps its invariant through every extraction, whatever
    the service answers. *)
Lemma extract_and_merge_merged_ok p :
  merged_set_ok (_merged (self p)) →
  merged_set_ok (_merged (self (extract_and_merge lx p).2)).
Proof.
  intros Hok. rewrite extract_and_merge_unfold. simpl.
  destruct (lx _ _) as [[doc|e] w']; simpl; [|done].
  by apply _merge_merged_set_ok.
Qed.

Lemma push_calls_triggered p chunk :
  chunk ≠ "" → ¬ below_half (self p) chunk →
  calls (env (push lx chunk p).2) =
  calls (env p) ++ [str_join NL (_transcript (self p) ++ [chunk])].
Proof.
  intros Hne Hge. rewrite push_unfold by done.
  rewrite decide_False by done.
  pose proof (extract_and_merge_calls
                (mkProc (appended chunk (self p)) (env p))) as Hc.
  by destruct (extract_and_merge _ _) as [[d|e] p'].
Qed.

End processor_facts.

Section processor_claims.
Context {World : Type}.
Variable lx : Oracle World.
Implicit Types (p : Proc World) (chunk : string).

(** C6: [flush()] with an empty pending buffer returns the empty list and
    changes nothing, the world and the log of extraction calls included;
    hence a flush that follows a completed flush is such a no-op. *)
Theorem flush_empty_is_noop p :
  (_buffer (self p) = [] → flush lx p = (Ok [], p))
  ∧ (∀ delta p', flush lx p = (Ok delta, p') →
       _buffer (self p') = [] ∧ flush lx p' = (Ok [], p')).
Proof.
  split.
  - intros Hb. rewrite flush_unfold. by rewrite Hb.
  - intros delta p' Hf.
    assert (_buffer (self p') = []) as Hb.
    { rewrite flush_unfold in Hf. destruct (_buffer (self p)) eqn:Hp.
      - by injection Hf as _ <-.
      - by apply extract_and_merge_ok in Hf as [? _]. }
    split; [done|]. rewrite flush_unfold. by rewrite Hb.
Qed.

(** C7: a non-empty [push] appends the fragment to transcript and buffer;
    below half the threshold it yields nothing and makes no extraction
    call; otherwise it makes exactly one call, over the joined transcript,
    and a call that succeeds leaves the buffer empty.  No call is made
    exactly when the pending size is below half the threshold. *)
Theorem push_threshold p chunk :
  chunk ≠ "" →
  let full_text := str_join NL (_transcript (self p) ++ [chunk]) in
  (below_half (self p) chunk →
     push lx chunk p = (Ok [], mkProc (appended chunk (self p)) (env p)))
  ∧ (¬ below_half (self p) chunk →
       calls (env (push lx chunk p).2) = calls (env p) ++ [full_text]
       ∧ (∀ e, (push lx chunk p).1 = Raise e →
            self (push lx chunk p).2 = appended chunk (self p))
       ∧ ∀ out p', push lx chunk p = (Ok out, p') →
           _buffer (self p') = []
           ∧ _transcript (self p') = _transcript (self p) ++ [chunk])
  ∧ (calls (env (push lx chunk p).2) = calls (env p)
     ↔ below_half (self p) chunk).
Proof.
  intros Hne full_text. split_and!.
  - intros Hlt. rewrite push_unfold by done. by rewrite decide_True.
  - intros Hge. split_and!.
    + by apply push_calls_triggered.
    + intros e. rewrite push_unfold by done. rewrite decide_False by done.
      rewrite extract_and_merge_unfold. simpl.
      by destruct (lx _ _) as [[doc|e'] w'].
    + intros out p'. rewrite push_unfold by done.
      rewrite decide_False by done.
      destruct (extract_and_merge _ _) as [[d|e] q] eqn:Hem; [|done].
      intros [= _ <-]. by apply extract_and_merge_ok in Hem.
  - split.
    + intros Hc. destruct (decide (below_half (self p) chunk)); [done|].
      rewrite push_calls_triggered in Hc by done. by apply snoc_neq in Hc.
    + intros Hlt. rewrite push_unfold by done. by rewrite decide_True.
Qed.

(** C8, as the code has it: [push] and [flush] have no handler, so when the
    service raises [e] during a triggered push or a flush the call raises
    that same [e], unwrapped; transcript and buffer keep everything
    accumulated (the pushed fragment included) and the merged list is
    untouched, so a following flush submits the same text again and a
    following push that extracts submits that text extended by the new
    fragment. *)
Theorem extraction_failure_keeps_state p chunk (e : exn) (w' : World) :
  (chunk ≠ "" → ¬ below_half (self p) chunk →
   let full_text := str_join NL (_transcript (self p) ++ [chunk]) in
   lx full_text (world (env p)) = (Raise e, w') →
   let p' := mkProc (appended chunk (self p))
               (mkEnv w' (calls (env p) ++ [full_text])) in
   push lx chunk p = (Raise e, p')
   ∧ calls (env (flush lx p').2) = calls (env p') ++ [full_text]
   ∧ ∀ c2, c2 ≠ "" →
       calls (env (push lx c2 p').2) =
       calls (env p') ++ [str_join NL (_transcript (self p) ++ [chunk; c2])])
  ∧ (_buffer (self p) ≠ [] →
     let full_text := str_join NL (_transcript (self p)) in
     lx full_text (world (env p)) = (Raise e, w') →
     let p' := mkProc (self p) (mkEnv w' (calls (env p) ++ [full_text])) in
     flush lx p = (Raise e, p')
     ∧ calls (env (flush lx p').2) = calls (env p') ++ [full_text]
     ∧ ∀ c2, c2 ≠ "" → ¬ below_half (self p) c2 →
         calls (env (push lx c2 p').2) =
         calls (env p') ++ [str_join NL (_transcript (self p) ++ [c2])]).
Proof.
  split.
  - intros Hne Hge full_text Hlx p'. split_and!.
    + rewrite push_unfold by done. rewrite decide_False by done.
      rewrite extract_and_merge_unfold. simpl. fold full_text.
      by rewrite Hlx.
    + rewrite flush_unfold. simpl.
      destruct (_buffer (self p) ++ [chunk]) eqn:Hb.
      { by apply app_nil in Hb as [_ ?]. }
      by rewrite extract_and_merge_calls.
    + intros c2 Hc2. rewrite push_calls_triggered; simpl; [|done|].
      * by rewrite <- (app_assoc (_transcript (self p))).
      * unfold below_half in *. simpl. rewrite pending_size_app.
        pose proof (pending_size_nonneg [c2]). lia.
  - intros Hb full_text Hlx p'. split_and!.
    + rewrite flush_unfold. destruct (_buffer (self p)) eqn:Hbuf; [done|].
      rewrite extract_and_merge_unfold. simpl. fold full_text.
      by rewrite Hlx.
    + rewrite flush_unfold. simpl. destruct (_buffer (self p)); [done|].
      by rewrite extract_and_merge_calls.
    + intros c2 Hc2 Hge. by rewrite push_calls_triggered.
Qed.

End processor_claims.

(** C8, as stated, fails: a push whose extraction raises [RuntimeError]
    raises that [RuntimeError] itself, not an [ExtractionFailure]. *)
Lemma failures_are_not_wrapped : ¬ failures_are_wrapped.
Proof.
  intros H. specialize (H failing_push_start (Push "AB") boom).
  assert ((run_op scripted (Push "AB") failing_push_start).1 = Raise boom)
    as Hraise by (by vm_compute).
  specialize (H Hraise). by vm_compute in H.
Qed.

(** ** The socket session *)

Section session_facts.
Context {World : Type}.
Variable lx : Oracle World.
Implicit Types (s : Session World) (rc : string * string).

Lemma turn_lookup rc (k : string) :
  ({[ "role" := PStr rc.1; "content" := PStr rc.2 ]} : gmap string pyval) !! k
  = if decide (k = "role") then Some (PStr rc.1)
    else if decide (k = "content") then Some (PStr rc.2) else None.
Proof.
  destruct (decide (k = "role")) as [->|Hr].
  - by rewrite lookup_insert_eq.
  - rewrite lookup_insert_ne by done.
    destruct (decide (k = "content")) as [->|Hc].
    + by rewrite lookup_singleton_eq.
    + by rewrite lookup_singleton_ne.
Qed.

Lemma or_strip_role (role : string) s :
  or_strip (World := World) (PStr role) "user" s =
  (Ok (strip (if bool_decide (role = "") then "user" else role)), s).
Proof. unfold or_strip. simpl. by destruct (bool_decide (role = "")). Qed.

Lemma or_strip_content (content : string) s :
  or_strip (World := World) (PStr content) "" s = (Ok (strip content), s).
Proof.
  unfold or_strip. simpl. destruct (bool_decide (content = "")) eqn:Hc; [|done].
  apply bool_decide_eq_true in Hc. by subst.
Qed.

(** A frame with content, in aggregate mode: the turn joins the history,
    the whole history is flattened and submitted, and the answer is sent
    as it came. *)
Lemma on_frame_turn_aggregate s rc :
  has_content rc →
  on_frame lx true (turn rc) s =
  let ms := conversation_messages s ++ [turn_message rc] in
  let txt := flatten_chat_messages ms in
  let r := lx txt (world (ws_env s)) in
  let env' := mkEnv r.2 (calls (ws_env s) ++ [txt]) in
  (Ok (),
   mkSession ms
     (sent s ++ [processing;
                 match r.1 with
                 | Ok doc => Payload "aggregate_result" (lx_data.text doc)
                               (spans_of doc)
                 | Raise e => Note "error" (Some (exn_str e))
                 end]) env').
Proof.
  intros Hc. unfold has_content in Hc.
  unfold on_frame, turn, data_get. rewrite !turn_lookup. simpl.
  unfold mbind, M_bind, mret, M_ret. simpl.
  rewrite or_strip_role, or_strip_content.
  fold (norm_role rc.1).
  rewrite (bool_decide_eq_false_2 (strip rc.2 = "")) by done.
  unfold send_text, modify, try_except, gets, set_messages, modify,
    _extract_single_message, lx_call. simpl.
  fold (turn_message rc).
  destruct (lx _ _) as [[doc|e] w']; simpl; by rewrite <- app_assoc.
Qed.

(** A reset frame, in aggregate mode. *)
Lemma on_frame_reset s (d : gmap string pyval) :
  is_reset d = true →
  on_frame lx true (Parsed (PDict d)) s =
  (Ok (), mkSession [] (sent s ++ [Note "eot_ack" None]) (ws_env s)).
Proof.
  unfold is_reset. intros Hr. unfold on_frame, data_get.
  unfold mbind, M_bind, mret, M_ret. by rewrite Hr.
Qed.

(** The texts submitted while serving turns that carry content, from any
    history [h]: the [k]-th is the flattening of [h] and the first [k+1]
    of these turns. *)
Lemma serve_turns_calls (turns : list (string * string)) s :
  Forall has_content turns →
  let s' := (serve lx true (turn <$> turns) s).2 in
  (serve lx true (turn <$> turns) s).1 = Ok ()
  ∧ conversation_messages s' =
      conversation_messages s ++ (turn_message <$> turns)
  ∧ calls (ws_env s') =
      calls (ws_env s)
      ++ ((λ k, flatten_chat_messages
                  (conversation_messages s
                   ++ take (S k) (turn_message <$> turns)))
          <$> seq 0 (length turns)).
Proof.
  revert s. induction turns as [|rc turns IH]; intros s Hall; cbv zeta.
  - simpl. by rewrite !app_nil_r.
  - apply Forall_cons in Hall as [Hrc Hall].
    rewrite fmap_cons. cbn [serve].
    unfold mbind, M_bind.
    rewrite on_frame_turn_aggregate by done. cbv beta iota zeta.
    set (s1 := mkSession _ _ _).
    destruct (IH s1 Hall) as (Hok & Hms & Hcalls).
    split_and!; [done| |].
    + rewrite Hms. simpl. by rewrite <- app_assoc.
    + rewrite Hcalls. simpl. rewrite <- app_assoc. simpl.
      do 2 f_equal. rewrite <- seq_shift, <- list_fmap_compose.
      apply list_fmap_ext. intros i k _. simpl.
      by rewrite <- app_assoc.
Qed.

End session_facts.

Section session_claims.
Context {World : Type}.
Variable lx : Oracle World.
Implicit Types (s : Session World) (rc : string * string).

(** C5, as the code has it: in aggregate mode, when the extraction over
    the flattened history succeeds, the session sends the progress frame
    and then one [aggregate_result] frame that carries the text returned
    by the extraction and every span of its answer (the full list of that
    call; the socket application keeps no merged set). *)
Theorem aggregate_result_carries_full_answer s rc
    (doc : AnnotatedDocument) (w' : World) :
  has_content rc →
  let ms := conversation_messages s ++ [turn_message rc] in
  let txt := flatten_chat_messages ms in
  lx txt (world (ws_env s)) = (Ok doc, w') →
  on_frame lx true (turn rc) s =
  (Ok (),
   mkSession ms
     (sent s ++ [processing;
                 Payload "aggregate_result" (lx_data.text doc)
                   (to_span <$> default [] (extractions doc))])
     (mkEnv w' (calls (ws_env s) ++ [txt]))).
Proof.
  intros Hc ms txt Hlx. rewrite on_frame_turn_aggregate by done.
  cbv zeta. fold ms txt. by rewrite Hlx.
Qed.

(** C9: in aggregate mode a reset frame empties the history, is answered
    by [eot_ack] and leaves the loop running; whatever the history and
    the frames sent before, the texts submitted for the turns that follow
    are the flattenings of those turns alone, and an answer that follows
    is sent with all its spans, including any that were sent before. *)
Theorem reset_starts_afresh s (d : gmap string pyval) :
  is_reset d = true →
  let s0 := mkSession [] (sent s ++ [Note "eot_ack" None]) (ws_env s) in
  on_frame lx true (Parsed (PDict d)) s = (Ok (), s0)
  ∧ (∀ post, serve lx true (Parsed (PDict d) :: post) s
             = serve lx true post s0)
  ∧ (∀ turns, Forall has_content turns →
       let s' := (serve lx true (Parsed (PDict d) :: (turn <$> turns)) s).2 in
       (serve lx true (Parsed (PDict d) :: (turn <$> turns)) s).1 = Ok ()
       ∧ conversation_messages s' = turn_message <$> turns
       ∧ calls (ws_env s') =
           calls (ws_env s)
           ++ ((λ k, flatten_chat_messages
                       (take (S k) (turn_message <$> turns)))
               <$> seq 0 (length turns)))
  ∧ (∀ rc doc w', has_content rc →
       lx (flatten_chat_messages [turn_message rc]) (world (ws_env s))
         = (Ok doc, w') →
       sent (on_frame lx true (turn rc) s0).2 =
       sent s0 ++ [processing;
                   Payload "aggregate_result" (lx_data.text doc)
                     (to_span <$> default [] (extractions doc))]).
Proof.
  intros Hr s0.
  assert (∀ post, serve lx true (Parsed (PDict d) :: post) s
                  = serve lx true post s0) as Hserve.
  { intros post. cbn [serve]. unfold mbind, M_bind.
    by rewrite on_frame_reset. }
  split_and!.
  - by apply on_frame_reset.
  - done.
  - intros turns Hall. cbv zeta. rewrite Hserve.
    destruct (serve_turns_calls lx turns s0 Hall) as (Hok & Hms & Hcalls).
    split_and!; done.
  - intros rc doc w' Hc Hlx.
    rewrite on_frame_turn_aggregate by done. simpl. by rewrite Hlx.
Qed.

End session_claims.

(** C5, as stated, fails: with two turns and a service that finds the same
    span both times, the second [aggregate_result] carries that span again,
    where the delta against the spans already accepted is empty. *)
Lemma aggregate_results_are_not_deltas : ¬ aggregate_results_are_deltas.
Proof.
  intros H.
  specialize (H [("user", "a"); ("user", "b")] [[span_AB]; [span_AB]]).
  assert (Forall has_content [("user", "a"); ("user", "b")]) as Hall.
  { repeat constructor; unfold has_content; by vm_compute. }
  specialize (H Hall eq_refl). vm_compute in H. discriminate H.
Qed.

(** ** The request-response endpoint *)

Lemma str_or_empty (x : option string) : str_or x "" = default "" x.
Proof.
  destruct x as [s|]; simpl; [|done].
  destruct (bool_decide (s = "")) eqn:Hs; [|done].
  by apply bool_decide_eq_true in Hs.
Qed.

Lemma flatten_step_line (lines : list string) (m : gmap string string) :
  flatten_step lines m = lines ++ option_list (turn_line m).
Proof.
  unfold flatten_step, turn_line. rewrite str_or_empty.
  destruct (bool_decide (strip _ = "")); simpl; [by rewrite app_nil_r|].
  do 3 f_equal. unfold str_or. destruct (m !! "role") as [r|]; [|done].
  destruct (bool_decide (r = "")) eqn:Hr.
  - apply bool_decide_eq_true in Hr. by subst.
  - apply bool_decide_eq_false in Hr. by destruct r.
Qed.

Lemma flatten_loop (messages : list (gmap string string)) (lines : list string) :
  foldl flatten_step lines messages = lines ++ omap turn_line messages.
Proof.
  revert lines. induction messages as [|m ms IH]; intros lines; simpl.
  - by rewrite app_nil_r.
  - rewrite IH, flatten_step_line, <- app_assoc.
    by destruct (turn_line m).
Qed.

Lemma flatten_chat_messages_spec (messages : list (gmap string string)) :
  flatten_chat_messages messages = flatten_spec messages.
Proof. unfold flatten_chat_messages, flatten_spec. by rewrite flatten_loop. Qed.

Section endpoint_claims.
Context {World : Type}.
Variable lx : Oracle World.

(** C10: a request without turns is refused with status 400 and detail
    ["messages must be provided"], no extraction call being made; for a
    request with turns the one text submitted is the flattening, in which
    a turn whose trimmed content is blank leaves no line and a turn with
    a missing (or empty) role gives the line ["user: content"]. *)
Theorem rest_empty_request_and_flattening
    (payload : rest_api.ExtractRequest) (e : Env World) :
  (rest_api.messages payload = [] →
     rest_api.extract_endpoint lx payload e =
     (inl (rest_api.mkHTTPException 400 "messages must be provided"), e))
  ∧ (rest_api.messages payload ≠ [] →
       calls (rest_api.extract_endpoint lx payload e).2 =
       calls e ++ [flatten_spec (rest_api.model_dump
                                   <$> rest_api.messages payload)])
  ∧ (∀ messages, flatten_chat_messages messages = flatten_spec messages)
  ∧ (∀ before m after,
       strip (default "" (m !! "content")) = "" →
       flatten_chat_messages (before ++ m :: after)
       = flatten_chat_messages (before ++ after))
  ∧ (∀ m, (m !! "role" = None ∨ m !! "role" = Some "") →
       strip (default "" (m !! "content")) ≠ "" →
       turn_line m = Some ("user: " +:+ strip (default "" (m !! "content")))).
Proof.
  split_and!.
  - intros Hm. unfold rest_api.extract_endpoint. by rewrite Hm.
  - intros Hm. unfold rest_api.extract_endpoint.
    destruct (rest_api.messages payload) as [|m ms] eqn:Hms; [done|].
    rewrite flatten_chat_messages_spec. unfold lx_call. simpl.
    by destruct (lx _ _) as [[doc|ex] w'].
  - apply flatten_chat_messages_spec.
  - intros before m after Hblank. rewrite !flatten_chat_messages_spec.
    unfold flatten_spec. rewrite !omap_app. simpl.
    unfold turn_line at 2. by rewrite Hblank.
  - intros m Hrole Hc. unfold turn_line.
    rewrite bool_decide_eq_false_2 by done.
    by destruct Hrole as [-> | ->].
Qed.

End endpoint_claims.

(** ** Concrete runs *)

Lemma merge_contract_witness :
  kept [span_AB] [span_AB; span_BC; span "word" "D" 3 4] = [span "word" "D" 3 4]
  ∧ keeps [span_AB] span_BC = false.
Proof.
  destruct (merge_contract [span_AB] [span_AB; span_BC; span "word" "D" 3 4])
    as (_ & _ & _ & Hpos & Hkeeps & _).
  split.
  - rewrite (Hpos [span_AB; span_BC] (span "word" "D" 3 4) [] eq_refl).
    by vm_compute.
  - destruct (keeps [span_AB] span_BC) eqn:Hk; [|done].
    apply Hkeeps in Hk as [_ Hov].
    specialize (Hov span_AB ltac:(by left)). by vm_compute in Hov.
Defined.

Lemma flush_empty_is_noop_witness :
  flush scripted overlap_run_start = (Ok [], overlap_run_start)
  ∧ flush scripted (flush scripted pending_start).2
    = (Ok [], (flush scripted pending_start).2).
Proof.
  split.
  - by apply (proj1 (flush_empty_is_noop scripted overlap_run_start)).
  - by apply (proj2 (flush_empty_is_noop scripted pending_start)
                [span_AB] (flush scripted pending_start).2).
Defined.

Lemma push_threshold_witness :
  push scripted "ABC" roomy_start
  = (Ok [], mkProc (appended "ABC" (self roomy_start)) (env roomy_start))
  ∧ calls (env (push scripted "AB" overlap_run_start).2) = ["AB"].
Proof.
  split.
  - apply (push_threshold scripted roomy_start "ABC"); [done|].
    unfold below_half. by vm_compute.
  - apply (push_threshold scripted overlap_run_start "AB"); [done|].
    unfold below_half. by vm_compute.
Defined.

Lemma extraction_failure_keeps_state_witness :
  push scripted "AB" failing_push_start
  = (Raise boom, mkProc (mkStreamExtractor 2 ["AB"] ["AB"] []) (mkEnv [] ["AB"]))
  ∧ flush scripted failing_flush_start
    = (Raise boom,
       mkProc (mkStreamExtractor 10 ["AB"] ["AB"] []) (mkEnv [] ["AB"])).
Proof.
  split.
  - apply (extraction_failure_keeps_state scripted failing_push_start "AB"
             boom []); [done| |done].
    unfold below_half. by vm_compute.
  - by apply (extraction_failure_keeps_state scripted failing_flush_start ""
                boom []).
Defined.

Lemma aggregate_result_carries_full_answer_witness :
  sent (on_frame scripted true (turn ("user", "second-1")) served_once).2
  = sent served_once
    ++ [processing; Payload "aggregate_result" None [to_span span_AB]].
Proof.
  rewrite (aggregate_result_carries_full_answer scripted served_once
             ("user", "second-1") (mkAnnotatedDocument None (Some [span_AB]))
             []); [done| |done].
  unfold has_content. by vm_compute.
Defined.

Lemma reset_starts_afresh_witness :
  calls (ws_env (serve scripted true
                   (Parsed (PDict eot_dict) :: (turn <$> [("user", "second-1")]))
                   served_once).2)
  = calls (ws_env served_once) ++ ["user: second-1"].
Proof.
  destruct (reset_starts_afresh scripted served_once eot_dict eq_refl)
    as (_ & _ & Hturns & _).
  destruct (Hturns [("user", "second-1")]) as (_ & _ & ->).
  - repeat constructor. unfold has_content. by vm_compute.
  - by vm_compute.
Defined.

Lemma rest_empty_request_and_flattening_witness :
  rest_api.extract_endpoint scripted no_turns (mkEnv [answer []] [])
  = (inl (rest_api.mkHTTPException 400 "messages must be provided"),
     mkEnv [answer []] [])
  ∧ calls (rest_api.extract_endpoint scripted two_turns
             (mkEnv [answer []] [])).2
    = ["user: first"].
Proof.
  destruct (rest_empty_request_and_flattening scripted no_turns
              (mkEnv [answer []] [])) as (Hempty & _).
  destruct (rest_empty_request_and_flattening scripted two_turns
              (mkEnv [answer []] [])) as (_ & Hcall & _).
  split.
  - by apply Hempty.
  - rewrite Hcall; [by vm_compute|done].
Defined.

(** ** Where the reported delta departs from the merged set *)

(** What [push] and [flush] hand back when they extract: the candidates
    whose key is not among the keys of the prior merged list, whether or
    not [_merge] then accepts them. *)
Lemma reported_delta_is_key_delta {World} (lx : Oracle World)
    (p : Proc World) (doc : AnnotatedDocument) (w' : World) :
  lx (str_join NL (_transcript (self p))) (world (env p)) = (Ok doc, w') →
  (extract_and_merge lx p).1 =
  Ok (filter (λ e, key e ∉ (list_to_set (key <$> _merged (self p)) : gset Key))
        (default [] (extractions doc))).
Proof. intros Hlx. rewrite extract_and_merge_unfold. simpl. by rewrite Hlx. Qed.

(** C1, on a run: after ["AB"] was accepted, the second push reports
    ["BC"], which overlaps it; [_merge] rejects it (the merged list stays
    [[AB]], nothing is kept), yet it is in the delta handed back. *)
Theorem push_reports_span_rejected_by_merge :
  (run_ops scripted [Push "AB"; Push "C"] overlap_run_start).1
  = Ok [[span_AB]; [span_BC]]
  ∧ _merged (self (run_ops scripted [Push "AB"; Push "C"] overlap_run_start).2)
    = [span_AB]
  ∧ kept [span_AB] [span_AB; span_BC] = [].
Proof. split_and!; by vm_compute. Qed.

(** C3, on a run: the rejected span never enters the merged list, so the
    next extraction reports it again; the emitted spans hold its key twice. *)
Theorem rejected_span_is_emitted_twice :
  emitted scripted [Push "AB"; Push "C"; Push "D"] overlap_run_start
  = [span_AB; span_BC; span_BC]
  ∧ ¬ NoDup (key <$> emitted scripted [Push "AB"; Push "C"; Push "D"]
                       overlap_run_start).
Proof.
  assert (emitted scripted [Push "AB"; Push "C"; Push "D"] overlap_run_start
          = [span_AB; span_BC; span_BC]) as Hrun by (by vm_compute).
  split; [done|]. rewrite Hrun. simpl. intros Hnd.
  apply NoDup_cons in Hnd as [_ Hnd]. apply NoDup_cons in Hnd as [Hnotin _].
  apply Hnotin. by left.
Qed.

(** C4, on a run: the two spans emitted by the first two pushes overlap. *)
Theorem emitted_spans_overlap :
  emitted scripted [Push "AB"; Push "C"] overlap_run_start
  = [span_AB; span_BC]
  ∧ overlaps span_AB span_BC = true.
Proof. split; by vm_compute. Qed.

(** * Further properties *)

(** ** More on [_merge] *)

Lemma merge_spec_app (a b result : list Extraction) :
  merge_spec result (a ++ b) = merge_spec (merge_spec result a) b.
Proof.
  revert result. induction a as [|c a IH]; intros result; simpl; [done|].
  by destruct (keeps result c).
Qed.

Lemma merge_spec_prefix (new result : list Extraction) :
  result `prefix_of` merge_spec result new.
Proof. rewrite merge_spec_kept. by apply prefix_app_r. Qed.

Lemma keeps_false_mono (result extra : list Extraction) (c : Extraction) :
  keeps result c = false → keeps (result ++ extra) c = false.
Proof.
  intros Hk. destruct (keeps (result ++ extra) c) eqn:Hk'; [|done].
  apply keeps_true_iff in Hk' as [Hkey Hov].
  assert (keeps result c = true) as Hk''; [|congruence].
  apply keeps_true_iff. split.
  - intros Hin. apply Hkey. rewrite fmap_app. apply elem_of_app. by left.
  - intros r Hr. apply Hov. apply elem_of_app. by left.
Qed.

(** After the merge no candidate would still be kept. *)
Lemma merge_spec_saturated (new result : list Extraction) (c : Extraction) :
  c ∈ new → keeps (merge_spec result new) c = false.
Proof.
  revert result. induction new as [|x new IH]; intros result Hc.
  { by apply elem_of_nil in Hc. }
  apply elem_of_cons in Hc as [->|Hc]; simpl.
  - destruct (keeps result x) eqn:Hk.
    + rewrite merge_spec_kept, <- app_assoc. simpl.
      destruct (keeps (result ++ _) x) eqn:Hk'; [|done].
      apply keeps_true_iff in Hk' as [Hkey _]. exfalso. apply Hkey.
      rewrite fmap_app. apply elem_of_app. right. by left.
    + rewrite merge_spec_kept. by apply keeps_false_mono.
  - destruct (keeps result x); by apply IH.
Qed.

Lemma kept_none (new result : list Extraction) :
  (∀ c, c ∈ new → keeps result c = false) → kept result new = [].
Proof.
  induction new as [|c new IH]; intros Hall; simpl; [done|].
  rewrite Hall by (by left). apply IH. intros c' Hc'. apply Hall. by right.
Qed.

(** X1: Merging the same candidates a second time adds nothing. *)
Theorem _merge_idempotent (first new : list Extraction) :
  _merge (_merge first new) new = _merge first new.
Proof.
  rewrite (_merge_eq (_merge first new)), kept_none; [by rewrite app_nil_r|].
  intros c Hc. unfold _merge. rewrite merge_loop. simpl.
  by apply merge_spec_saturated.
Qed.

(** X2: Merging two answers one after the other is merging their
    concatenation. *)
Theorem _merge_app (first a b : list Extraction) :
  _merge first (a ++ b) = _merge (_merge first a) b.
Proof. unfold _merge. rewrite !merge_loop. simpl. apply merge_spec_app. Qed.

(** X3: A candidate is left out only for a reason that can be read off the
    result: its key is there, or it overlaps a span that is there; and a
    candidate without interval always has its key in the result. *)
Theorem _merge_drops_only_for_cause (first new : list Extraction)
    (c : Extraction) :
  c ∈ new →
  (key c ∈ (key <$> _merge first new)
   ∨ ∃ r, r ∈ _merge first new ∧ overlaps c r = true)
  ∧ (char_interval c = None → key c ∈ (key <$> _merge first new)).
Proof.
  intros Hc.
  assert (key c ∈ (key <$> _merge first new)
          ∨ ∃ r, r ∈ _merge first new ∧ overlaps c r = true) as Hcause.
  { pose proof (merge_spec_saturated new first c Hc) as Hk.
    unfold _merge. rewrite merge_loop. simpl.
    destruct (existsb (overlaps c) (merge_spec first new)) eqn:Hex.
    - right. apply existsb_exists in Hex as (r & Hr & Ho).
      exists r. split; [by apply list_elem_of_In|done].
    - left. unfold keeps in Hk. rewrite existsb_overlaps in Hex.
      apply negb_false_iff in Hex. rewrite Hex, andb_true_r in Hk.
      apply bool_decide_eq_false in Hk.
      destruct (decide (key c ∈ (key <$> merge_spec first new))) as [?|Hn];
        [done|by destruct Hk]. }
  split; [done|]. intros Hnone.
  destruct Hcause as [?|(r & _ & Ho)]; [done|].
  apply (overlaps_no_interval c r) in Hnone as [Hno _]. congruence.
Qed.

Lemma pairwise_disjoint_lookup (l : list Extraction) (i j : nat)
    (a b : Extraction) :
  pairwise_disjoint l → i ≠ j → l !! i = Some a → l !! j = Some b →
  overlaps a b = false.
Proof.
  revert i j. induction l as [|x l IH]; intros i j Hpd Hij Hi Hj; [done|].
  destruct Hpd as [Hx Hl]. rewrite Forall_forall in Hx.
  destruct i as [|i], j as [|j]; simpl in *; simplify_eq.
  - apply Hx. by eapply list_elem_of_lookup_2.
  - rewrite overlaps_sym. apply Hx. by eapply list_elem_of_lookup_2.
  - apply (IH i j); [done|congruence|done..].
Qed.

(** X4: In the result of [_merge] on a proper merged list, two spans at
    different positions have different keys and do not overlap. *)
Theorem merged_spans_distinct_and_disjoint (first new : list Extraction)
    (i j : nat) (a b : Extraction) :
  merged_set_ok first → i ≠ j →
  _merge first new !! i = Some a → _merge first new !! j = Some b →
  key a ≠ key b ∧ overlaps a b = false.
Proof.
  intros Hok Hij Hi Hj.
  destruct (_merge_merged_set_ok first new Hok) as [Hnd Hpd]. split.
  - intros Hk. apply Hij.
    apply (NoDup_lookup (key <$> _merge first new) i j (key a)); [done|..].
    + by rewrite list_lookup_fmap, Hi.
    + by rewrite list_lookup_fmap, Hj, Hk.
  - by apply (pairwise_disjoint_lookup (_merge first new) i j).
Qed.

(** ** More on [push] and [flush] *)

Lemma kept_sublist_filter (K : gset Key) (cs result : list Extraction) :
  (∀ k, k ∈ K → k ∈ (key <$> result)) →
  kept result cs `sublist_of` filter (λ e, key e ∉ K) cs.
Proof.
  revert result. induction cs as [|c cs IH]; intros result HK; simpl; [done|].
  destruct (keeps result c) eqn:Hk.
  - apply keeps_true_iff in Hk as [Hkey _].
    rewrite filter_cons_True by (intros Hin; by apply Hkey, HK).
    apply sublist_skip, IH. intros k Hin. rewrite fmap_app.
    apply elem_of_app. left. by apply HK.
  - destruct (decide (key c ∉ K)).
    + rewrite filter_cons_True by done. by apply sublist_cons, IH.
    + rewrite filter_cons_False by done. by apply IH.
Qed.

Lemma kept_clean (K : gset Key) (cs result : list Extraction) :
  NoDup (key <$> cs) → pairwise_disjoint cs →
  (∀ c r, c ∈ cs → r ∈ result → overlaps c r = false) →
  (∀ c, c ∈ cs → key c ∈ (key <$> result) ↔ key c ∈ K) →
  kept result cs = filter (λ e, key e ∉ K) cs.
Proof.
  revert result. induction cs as [|c cs IH]; intros result Hnd Hpd Hov HK;
    simpl; [done|].
  apply NoDup_cons in Hnd as [Hc Hnd]. destruct Hpd as [Hcd Hpd].
  rewrite Forall_forall in Hcd.
  destruct (decide (key c ∈ K)) as [Hin|Hout].
  - rewrite filter_cons_False by (intros Hn; by apply Hn).
    assert (keeps result c = false) as ->.
    { destruct (keeps result c) eqn:Hk; [|done].
      apply keeps_true_iff in Hk as [Hkey _]. exfalso.
      apply Hkey, HK; [by left|done]. }
    apply IH; [done..| |].
    + intros c' r Hc' Hr. apply Hov; [by right|done].
    + intros c' Hc'. apply HK. by right.
  - rewrite filter_cons_True by done.
    assert (keeps result c = true) as ->.
    { apply keeps_true_iff. split.
      - intros Hin. apply Hout, HK; [by left|done].
      - intros r Hr. apply Hov; [by left|done]. }
    f_equal. apply IH; [done..| |].
    + intros c' r Hc' Hr. apply elem_of_app in Hr as [Hr|Hr].
      * apply Hov; [by right|done].
      * apply list_elem_of_singleton in Hr as ->.
        rewrite overlaps_sym. by apply Hcd.
    + intros c' Hc'. rewrite fmap_app, elem_of_app. simpl.
      rewrite list_elem_of_singleton, <- (HK c') by (by right).
      split; [|by left]. intros [?|Heq]; [done|].
      exfalso. apply Hc. rewrite <- Heq. by apply list_elem_of_fmap_2.
Qed.

Section more_processor.
Context {World : Type}.
Variable lx : Oracle World.
Implicit Types (p : Proc World) (chunk : string) (ops : list Op).

Lemma run_op_state (op : Op) p :
  (run_op lx op p).2 =
  match op with
  | Push c => (push lx c p).2
  | Flush => (flush lx p).2
  end.
Proof.
  destruct op as [c|]; [|done]. unfold run_op, mbind, M_bind.
  by destruct (push lx c p) as [[ds|e] q].
Qed.

Lemma push_state chunk p :
  chunk ≠ "" →
  (push lx chunk p).2 =
  if decide (below_half (self p) chunk)
  then mkProc (appended chunk (self p)) (env p)
  else (extract_and_merge lx (mkProc (appended chunk (self p)) (env p))).2.
Proof.
  intros Hne. rewrite push_unfold by done.
  destruct (decide _); [done|].
  by destruct (extract_and_merge _ _) as [[d|e] q].
Qed.

(** What one operation can do to the object, whether it returns or raises. *)
Lemma run_op_effect (op : Op) p :
  let q := (run_op lx op p).2 in
  _max_char_buffer (self q) = _max_char_buffer (self p)
  ∧ _transcript (self q) = _transcript (self p) ++ pushed [op]
  ∧ (_buffer (self q) = [] ∨ _buffer (self q) = _buffer (self p) ++ pushed [op])
  ∧ (_merged (self q) = _merged (self p)
     ∨ ∃ new, _merged (self q) = _merge (_merged (self p)) new).
Proof.
  cbv zeta. rewrite run_op_state. destruct op as [c|]; unfold pushed; simpl.
  - destruct (decide (c = "")) as [->|Hne].
    { rewrite push_empty. simpl. rewrite !app_nil_r.
      split_and!; first [done | by left | by right]. }
    rewrite push_state, bool_decide_eq_false_2 by done.
    destruct (decide (below_half (self p) c)); simpl;
      [split_and!; first [done | by left | by right]|].
    rewrite extract_and_merge_unfold. simpl.
    destruct (lx _ _) as [[doc|e] w']; simpl;
      [|split_and!; first [done | by left | by right]].
    split_and!; [done|done|by left|right; by eexists].
  - rewrite flush_unfold, !app_nil_r. destruct (_buffer (self p)) eqn:Hb.
    { simpl. try rewrite Hb. split_and!; first [done | by left | by right]. }
    rewrite extract_and_merge_unfold. simpl.
    destruct (lx _ _) as [[doc|e] w']; simpl.
    + split_and!; [done|done|by left|right; by eexists].
    + split_and!; first [done | by left | by right].
Qed.

Lemma run_ops_cons (op : Op) ops p :
  (run_ops lx (op :: ops) p).2 =
  match (run_op lx op p).1 with
  | Ok _ => (run_ops lx ops (run_op lx op p).2).2
  | Raise _ => (run_op lx op p).2
  end.
Proof.
  simpl. unfold mbind at 1, M_bind.
  destruct (run_op lx op p) as [[d|e] q]; simpl; [|done].
  unfold mbind, M_bind. by destruct (run_ops lx ops q) as [[ds|e] q'].
Qed.

(** A property kept by every single operation is kept by every run. *)
Lemma run_ops_preserves (I : Proc World → Prop) :
  (∀ op p, I p → I (run_op lx op p).2) →
  ∀ ops p, I p → I (run_ops lx ops p).2.
Proof.
  intros Hstep ops. induction ops as [|op ops IH]; intros p Hp; [done|].
  rewrite run_ops_cons. specialize (Hstep op p Hp).
  destruct (run_op lx op p).1; [by apply IH|done].
Qed.

(** X5: Through any sequence of pushes and flushes, whatever the service
    answers and even if a call raises, the merged list stays a proper merged
    set (distinct keys, no overlap) and only grows at its end. *)
Theorem merged_set_over_runs ops p :
  merged_set_ok (_merged (self p)) →
  merged_set_ok (_merged (self (run_ops lx ops p).2))
  ∧ _merged (self p) `prefix_of` _merged (self (run_ops lx ops p).2).
Proof.
  intros Hok.
  apply (run_ops_preserves
           (λ q, merged_set_ok (_merged (self q))
                 ∧ _merged (self p) `prefix_of` _merged (self q)));
    [|by split].
  intros op q [Hq Hpre].
  destruct (run_op_effect op q) as (_ & _ & _ & [-> | [new ->]]); [done|].
  split; [by apply _merge_merged_set_ok|].
  etrans; [done|]. rewrite _merge_eq. by apply prefix_app_r.
Qed.

(** X6: Through any run the threshold is unchanged, the pending fragments are
    the last fragments of the transcript, no fragment is empty, and the
    transcript only grows at its end. *)
Theorem buffer_and_transcript_over_runs ops p :
  buffer_ok (self p) →
  let q := (run_ops lx ops p).2 in
  buffer_ok (self q)
  ∧ _max_char_buffer (self q) = _max_char_buffer (self p)
  ∧ _transcript (self p) `prefix_of` _transcript (self q).
Proof.
  intros Hok.
  apply (run_ops_preserves
           (λ q, buffer_ok (self q)
                 ∧ _max_char_buffer (self q) = _max_char_buffer (self p)
                 ∧ _transcript (self p) `prefix_of` _transcript (self q)));
    [|by split_and!].
  intros op q ([Hsuf Hne] & Hmax & Hpre).
  destruct (run_op_effect op q) as (Hm & Ht & Hb & _).
  split_and!.
  - split.
    + rewrite Ht. destruct Hb as [-> | ->]; [apply suffix_nil|].
      destruct Hsuf as [k ->]. exists k. by rewrite app_assoc.
    + rewrite Ht. intros [Hin|Hin]%elem_of_app; [done|].
      unfold pushed in Hin. destruct op as [c|]; simpl in Hin;
        [|by apply elem_of_nil in Hin].
      rewrite app_nil_r in Hin. case_bool_decide; [by apply elem_of_nil in Hin|].
      by apply list_elem_of_singleton in Hin.
  - congruence.
  - rewrite Ht. etrans; [done|]. by apply prefix_app_r.
Qed.

(** X7: A run that returns has appended to the transcript exactly the non-empty
    fragments pushed, in order, and returned one delta per operation. *)
Theorem transcript_of_run ops p (ds : list (list Extraction)) :
  (run_ops lx ops p).1 = Ok ds →
  _transcript (self (run_ops lx ops p).2) = _transcript (self p) ++ pushed ops
  ∧ length ds = length ops.
Proof.
  revert p ds. induction ops as [|op ops IH]; intros p ds.
  { simpl. intros [= <-]. by rewrite app_nil_r. }
  rewrite run_ops_cons. simpl. unfold mbind at 1, M_bind.
  destruct (run_op_effect op p) as (_ & Ht & _).
  destruct (run_op lx op p) as [[d|e] q]; simpl in *; [|done].
  unfold mbind at 1, M_bind.
  destruct (run_ops lx ops q) as [[ds'|e] q'] eqn:Hrun; simpl; [|done].
  intros [= <-]. destruct (IH q ds') as [Ht' Hlen]; [by rewrite Hrun|].
  rewrite Hrun in Ht'. simpl in Ht'. rewrite Ht', Ht. split.
  - rewrite <- app_assoc. f_equal. unfold pushed. simpl.
    by rewrite app_nil_r.
  - simpl. by rewrite Hlen.
Qed.

End more_processor.

Section deltas.
Context {World : Type}.
Variable lx : Oracle World.
Implicit Types (p : Proc World) (chunk : string).

Lemma extract_and_merge_result p (delta : list Extraction) (p' : Proc World) :
  extract_and_merge lx p = (Ok delta, p') →
  ∃ doc w',
    lx (str_join NL (_transcript (self p))) (world (env p)) = (Ok doc, w')
    ∧ delta = filter (λ e, key e ∉ (list_to_set (key <$> _merged (self p))
                                     : gset Key))
                (default [] (extractions doc))
    ∧ _merged (self p') =
        _merged (self p)
        ++ kept (_merged (self p)) (default [] (extractions doc)).
Proof.
  rewrite extract_and_merge_unfold. simpl.
  destruct (lx _ _) as [[doc|e] w'] eqn:Hlx; simpl; [|done].
  intros [= <- <-]. exists doc, w'. split_and!; [done..|].
  simpl. apply _merge_eq.
Qed.

Lemma push_ok_cases chunk p (out : list (list Extraction)) (p' : Proc World) :
  push lx chunk p = (Ok out, p') →
  (out = [] ∧ _merged (self p') = _merged (self p))
  ∨ ∃ delta, extract_and_merge lx (mkProc (appended chunk (self p)) (env p))
             = (Ok delta, p')
             ∧ concat out = delta
             ∧ (out = [] ∨ (out = [delta] ∧ delta ≠ [])).
Proof.
  destruct (decide (chunk = "")) as [->|Hne].
  { rewrite push_empty. intros [= <- <-]. by left. }
  rewrite push_unfold by done. destruct (decide _).
  { intros [= <- <-]. by left. }
  destruct (extract_and_merge _ _) as [[d|e] q] eqn:Hem; [|done].
  intros [= <- <-]. right. exists d. split; [done|].
  destruct d as [|x d]; simpl; [by auto|].
  rewrite app_nil_r. split; [done|]. by right.
Qed.

(** X9: Whatever [flush] or [push] adds to the merged list is part of the
    delta it returns, in the same order, and every span of the delta has a
    key that the merged list did not hold before. *)
Theorem delta_covers_merge p :
  (∀ delta p', flush lx p = (Ok delta, p') →
     (∃ added, _merged (self p') = _merged (self p) ++ added
               ∧ added `sublist_of` delta)
     ∧ ∀ e, e ∈ delta → key e ∉ (key <$> _merged (self p)))
  ∧ (∀ chunk out p', push lx chunk p = (Ok out, p') →
       (∃ added, _merged (self p') = _merged (self p) ++ added
                 ∧ added `sublist_of` concat out)
       ∧ ∀ e, e ∈ concat out → key e ∉ (key <$> _merged (self p))).
Proof.
  assert (∀ q delta q', extract_and_merge lx q = (Ok delta, q') →
            (∃ added, _merged (self q') = _merged (self q) ++ added
                      ∧ added `sublist_of` delta)
            ∧ ∀ e, e ∈ delta → key e ∉ (key <$> _merged (self q))) as Hem.
  { intros q delta q' (doc & w' & _ & -> & Hm)%extract_and_merge_result.
    split.
    - eexists. split; [done|]. apply kept_sublist_filter.
      intros k Hk. by apply elem_of_list_to_set in Hk.
    - intros e [He _]%list_elem_of_filter Hin. apply He.
      by apply elem_of_list_to_set. }
  split.
  - intros delta p'. rewrite flush_unfold.
    destruct (_buffer (self p)); [|by apply Hem].
    intros [= <- <-]. split.
    + exists []. by rewrite app_nil_r.
    + intros e He. by apply elem_of_nil in He.
  - intros chunk out p' [[-> ->]|(delta & Hq & -> & _)]%push_ok_cases.
    + split; [exists []; by rewrite app_nil_r|].
      intros e He. by apply elem_of_nil in He.
    + by apply Hem in Hq.
Qed.

(** X10: When the answer has distinct keys, no two of its spans overlap and none
    overlaps the merged list, the delta returned is exactly what is added to
    the merged list. *)
Theorem delta_exact_when_clean p (doc : AnnotatedDocument) (w' : World) :
  _buffer (self p) ≠ [] →
  lx (str_join NL (_transcript (self p))) (world (env p)) = (Ok doc, w') →
  clean_answer (_merged (self p)) (default [] (extractions doc)) →
  ∃ delta p', flush lx p = (Ok delta, p')
              ∧ _merged (self p') = _merged (self p) ++ delta
              ∧ delta `sublist_of` default [] (extractions doc).
Proof.
  intros Hb Hlx (Hnd & Hpd & Hov).
  rewrite flush_unfold. destruct (_buffer (self p)) eqn:Hbuf; [done|].
  destruct (extract_and_merge lx p) as [[delta|e] p'] eqn:Hem.
  - exists delta, p'. split; [done|].
    apply extract_and_merge_result in Hem as (doc' & w'' & Hlx' & -> & ->).
    rewrite Hlx in Hlx'. injection Hlx' as <- <-. split.
    + f_equal. apply kept_clean; [done..|].
      intros c _. by rewrite elem_of_list_to_set.
    + apply sublist_filter.
  - rewrite extract_and_merge_unfold in Hem. simpl in Hem.
    by rewrite Hlx in Hem.
Qed.

(** X11: A non-empty fragment at least as long as half the threshold, or any
    non-empty fragment when the threshold is below 2, makes [push] extract
    at once over the whole transcript. *)
Theorem push_large_fragment_extracts p chunk :
  chunk ≠ "" →
  (_max_char_buffer (self p) `div` 2 ≤ len chunk)%Z
  ∨ (_max_char_buffer (self p) < 2)%Z →
  calls (env (push lx chunk p).2) =
  calls (env p) ++ [str_join NL (_transcript (self p) ++ [chunk])].
Proof.
  intros Hne Hbig. apply push_calls_triggered; [done|].
  unfold below_half. rewrite pending_size_app.
  pose proof (pending_size_nonneg (_buffer (self p))) as Hpos.
  assert (pending_size [chunk] = len chunk) as ->
    by (unfold pending_size; simpl; lia).
  pose proof (len_nonneg chunk).
  destruct Hbig as [Hbig|Hsmall]; [lia|].
  assert (_max_char_buffer (self p) `div` 2 < 1)%Z; [|lia].
  apply Z.div_lt_upper_bound; lia.
Qed.

End deltas.

(** ** [arun_async] *)

Section arun_facts.
Context {World : Type}.
Variable lx : Oracle World.
Implicit Types (p : Proc World) (chunks : list string).

Lemma nonempty_deltas_push chunk p (out : list (list Extraction))
    (p' : Proc World) :
  push lx chunk p = (Ok out, p') →
  nonempty_deltas out = nonempty_deltas [concat out].
Proof.
  intros [[-> _]|(delta & _ & Hc & [-> | [-> Hne]])]%push_ok_cases;
    simpl in *; subst; try done.
  by rewrite app_nil_r.
Qed.

Lemma run_ops_push chunk (ops : list Op) p :
  run_ops lx (Push chunk :: ops) p =
  match push lx chunk p with
  | (Ok out, q) =>
      match run_ops lx ops q with
      | (Ok ds, q') => (Ok (concat out :: ds), q')
      | (Raise e, q') => (Raise e, q')
      end
  | (Raise e, q) => (Raise e, q)
  end.
Proof.
  simpl. unfold mbind, M_bind, mret, M_ret.
  destruct (push lx chunk p) as [[out|e] q]; [|done].
  by destruct (run_ops lx ops q) as [[ds|e] q'].
Qed.

Lemma run_ops_flush p :
  run_ops lx [Flush] p =
  match flush lx p with
  | (Ok d, q) => (Ok [d], q)
  | (Raise e, q) => (Raise e, q)
  end.
Proof.
  simpl. unfold mbind, M_bind, mret, M_ret.
  by destruct (flush lx p) as [[d|e] q].
Qed.

(** X12: Running the async generator over a finite stream is pushing every
    chunk and flushing once at the end: it yields the non-empty deltas of
    that run, ends in the same state, and is ended by the same exception. *)
Theorem arun_async_is_push_then_flush chunks p :
  match run_ops lx ((Push <$> chunks) ++ [Flush]) p with
  | (Ok ds, p') => arun_async lx chunks p = (nonempty_deltas ds, None, p')
  | (Raise e, p') =>
      (arun_async lx chunks p).1.2 = Some e ∧ (arun_async lx chunks p).2 = p'
  end.
Proof.
  revert p. induction chunks as [|chunk chunks IH]; intros p.
  - rewrite fmap_nil, app_nil_l, run_ops_flush. simpl.
    by destruct (flush lx p) as [[d|e] p'].
  - rewrite fmap_cons, <- app_comm_cons, run_ops_push. cbn [arun_async].
    destruct (push lx chunk p) as [[out|e] q] eqn:Hpush; [|done].
    specialize (IH q).
    destruct (run_ops lx ((Push <$> chunks) ++ [Flush]) q) as [[ds|e] q'].
    + rewrite IH. simpl.
      rewrite (nonempty_deltas_push chunk p out q Hpush).
      unfold nonempty_deltas. by rewrite <- filter_app.
    + by destruct IH as [-> ->].
Qed.

(** X13: The generator never yields an empty delta, and when it ends without
    exception nothing is left pending. *)
Theorem arun_async_yields_nonempty chunks p :
  Forall (λ d, d ≠ []) (arun_async lx chunks p).1.1
  ∧ ((arun_async lx chunks p).1.2 = None →
     _buffer (self (arun_async lx chunks p).2) = []).
Proof.
  assert (∀ ds, Forall (λ d : list Extraction, d ≠ []) (nonempty_deltas ds))
    as Hne.
  { intros ds. apply Forall_forall. by intros d [? _]%list_elem_of_filter. }
  revert p. induction chunks as [|chunk chunks IH]; intros p; simpl.
  - destruct (flush lx p) as [[d|e] p'] eqn:Hf; simpl; [|done].
    split; [apply Hne|]. intros _.
    rewrite flush_unfold in Hf. destruct (_buffer (self p)) eqn:Hb.
    + by injection Hf as _ <-.
    + by apply extract_and_merge_ok in Hf as [? _].
  - destruct (push lx chunk p) as [[out|e] q]; simpl; [|done].
    destruct (IH q) as [Hall Hbuf]. split; [|done].
    apply Forall_app. split; [apply Hne|done].
Qed.

End arun_facts.

(** ** The provider parameters *)

Lemma setdefault_lookup {V} (k k' : string) (v : V) (d : gmap string V) :
  setdefault k v d !! k' =
  match d !! k' with
  | Some x => Some x
  | None => if decide (k = k') then Some v else None
  end.
Proof.
  unfold setdefault. destruct (d !! k) as [x|] eqn:Hk.
  - destruct (d !! k') eqn:Hk'; [done|]. case_decide; [congruence|done].
  - destruct (decide (k = k')) as [<-|Hne].
    + by rewrite lookup_insert_eq, Hk.
    + rewrite lookup_insert_ne by done. by destruct (d !! k').
Qed.

(** X14: [__init__] never overrides a provider parameter that the caller passed
    in [language_model_params]; it only fills in [temperature] (when one is
    given) and [model_url] and [base_url] (when a non-empty URL is given)
    where the caller left them out, and adds no other key. *)
Theorem caller_params_take_precedence {F} (temperature : option F)
    (model_url : option string) (params : option (gmap string (anyval F))) :
  let given := default ∅ params in
  let d := init_lm_params temperature model_url params in
  (∀ k v, given !! k = Some v → d !! k = Some v)
  ∧ (∀ t, temperature = Some t → given !! "temperature" = None →
       d !! "temperature" = Some (VFloat t))
  ∧ (∀ u k, model_url = Some u → u ≠ "" → k = "model_url" ∨ k = "base_url" →
       given !! k = None → d !! k = Some (VStr u))
  ∧ (∀ k, given !! k = None →
       k ≠ "temperature" ∨ temperature = None →
       (k ≠ "model_url" ∧ k ≠ "base_url")
         ∨ model_url = None ∨ model_url = Some "" →
       d !! k = None).
Proof.
  intros given d. subst d. unfold init_lm_params. fold given.
  split_and!.
  - intros k v Hk.
    destruct temperature as [t|], model_url as [u|]; try case_bool_decide;
      rewrite ?setdefault_lookup, ?Hk; done.
  - intros t -> Ht.
    destruct model_url as [u|]; try case_bool_decide;
      rewrite ?setdefault_lookup, ?Ht; simpl; done.
  - intros u k -> Hu Hk Hnone. rewrite bool_decide_eq_false_2 by done.
    destruct temperature as [t|];
      rewrite !setdefault_lookup, ?Hnone; destruct Hk as [-> | ->]; done.
  - intros k Hnone Ht Hu.
    destruct temperature as [t|], model_url as [u|]; try case_bool_decide;
      rewrite ?setdefault_lookup, ?Hnone; repeat case_decide; subst;
      try done; intuition congruence.
Qed.

(** ** The API key taken from the environment *)

(** X15: [_env_api_key_for] returns a dict with the single key [api_key].  When
    [LANGEXTRACT_API_KEY] is set and not empty the key is a non-empty string
    for every model; for a [gemini] model a non-empty [GEMINI_API_KEY] wins
    and [OPENAI_API_KEY] is never looked at; for a model that is neither
    [gemini], [gpt] nor [o1] only [LANGEXTRACT_API_KEY] counts. *)
Theorem api_key_from_environment (environ : gmap string string)
    (model_id : string) :
  (∃ v, _env_api_key_for environ model_id = {[ "api_key" := v ]})
  ∧ (∀ k, environ !! "LANGEXTRACT_API_KEY" = Some k → k ≠ "" →
       ∃ v, v ≠ "" ∧
            _env_api_key_for environ model_id !! "api_key" = Some (Some v))
  ∧ (startswith model_id "gemini" = true →
       (∀ k, environ !! "GEMINI_API_KEY" = Some k → k ≠ "" →
          _env_api_key_for environ model_id !! "api_key" = Some (Some k))
       ∧ ∀ x, _env_api_key_for (<[ "OPENAI_API_KEY" := x ]> environ) model_id
              = _env_api_key_for environ model_id)
  ∧ (startswith model_id "gemini" = false →
     startswith model_id "gpt" = false →
     startswith model_id "o1" = false →
       _env_api_key_for environ model_id !! "api_key"
       = Some (environ !! "LANGEXTRACT_API_KEY")).
Proof.
  unfold _env_api_key_for. split_and!.
  - repeat (case_match; try by eexists).
  - intros k Hk Hne.
    assert (∀ k1, ∃ v, v ≠ "" ∧
              getenv_or environ k1 "LANGEXTRACT_API_KEY" = Some v) as Hor.
    { intros k1. unfold getenv_or. rewrite Hk.
      destruct (environ !! k1) as [v1|]; [|by exists k].
      case_bool_decide; [by exists k|by exists v1]. }
    destruct (startswith model_id "gemini");
      [|destruct (startswith model_id "gpt" || startswith model_id "o1")];
      rewrite lookup_singleton_eq.
    + destruct (Hor "GEMINI_API_KEY") as (v & ? & ->). by exists v.
    + destruct (Hor "OPENAI_API_KEY") as (v & ? & ->). by exists v.
    + rewrite Hk. by exists k.
  - intros ->. split.
    + intros k Hk Hne. rewrite lookup_singleton_eq. unfold getenv_or.
      by rewrite Hk, bool_decide_eq_false_2.
    + intros x. unfold getenv_or.
      by rewrite !lookup_insert_ne.
  - intros -> -> ->. simpl. by rewrite lookup_singleton_eq.
Qed.

(** ** Strings: trimming *)

Lemma str_app_assoc (s1 s2 s3 : string) :
  (s1 +:+ s2) +:+ s3 = s1 +:+ s2 +:+ s3.
Proof.
  induction s1 as [|a s1 IH]; [done|].
  change (String a ((s1 +:+ s2) +:+ s3) = String a (s1 +:+ s2 +:+ s3)).
  by rewrite IH.
Qed.

Lemma str_app_nil_r (s : string) : s +:+ "" = s.
Proof.
  induction s as [|a s IH]; [done|].
  change (String a (s +:+ "") = String a s). by rewrite IH.
Qed.

Lemma str_rev_app_append (s t : string) :
  String.rev_app s t = String.rev s +:+ t.
Proof.
  unfold String.rev. revert t. induction s as [|a s IH]; intros t; [done|].
  simpl. rewrite (IH (String a t)), (IH (String a "")).
  by rewrite str_app_assoc.
Qed.

Lemma str_rev_cons (a : ascii) (s : string) :
  String.rev (String a s) = String.rev s +:+ String a "".
Proof. unfold String.rev at 1. simpl. apply str_rev_app_append. Qed.

Lemma str_rev_append (s t : string) :
  String.rev (s +:+ t) = String.rev t +:+ String.rev s.
Proof.
  induction s as [|a s IH].
  - change ("" +:+ t) with t. by rewrite str_app_nil_r.
  - change (String a s +:+ t) with (String a (s +:+ t)).
    by rewrite !str_rev_cons, IH, str_app_assoc.
Qed.

Lemma str_rev_involutive (s : string) : String.rev (String.rev s) = s.
Proof.
  induction s as [|a s IH]; [done|].
  by rewrite str_rev_cons, str_rev_append, IH.
Qed.

Lemma lstrip_nonspace (a : ascii) (s : string) :
  isspace a = false → lstrip (String a s) = String a s.
Proof. intros Ha. simpl. by rewrite Ha. Qed.

Lemma lstrip_cases (s : string) :
  lstrip s = "" ∨ ∃ a t, lstrip s = String a t ∧ isspace a = false.
Proof.
  induction s as [|a s IH]; [by left|]. simpl.
  destruct (isspace a) eqn:Ha; [done|]. right. by exists a, s.
Qed.

Lemma lstrip_append_nonspace (u v : string) (a : ascii) :
  isspace a = false →
  lstrip (u +:+ String a v) = lstrip u +:+ String a v.
Proof.
  intros Ha. induction u as [|b u IH].
  - change ("" +:+ String a v) with (String a v). by rewrite lstrip_nonspace.
  - change (String b u +:+ String a v) with (String b (u +:+ String a v)).
    simpl. by destruct (isspace b).
Qed.

Lemma rstrip_nonspace_cons (a : ascii) (t : string) :
  isspace a = false → rstrip (String a t) = String a (rstrip t).
Proof.
  intros Ha. unfold rstrip.
  rewrite str_rev_cons, lstrip_append_nonspace, str_rev_append by done.
  done.
Qed.

(** Trimming twice is trimming once. *)
Lemma strip_idempotent (s : string) : strip (strip s) = strip s.
Proof.
  unfold strip.
  assert (lstrip (rstrip (lstrip s)) = rstrip (lstrip s)) as ->.
  { destruct (lstrip_cases s) as [->|(a & t & -> & Ha)]; [done|].
    rewrite rstrip_nonspace_cons by done. by apply lstrip_nonspace. }
  unfold rstrip. rewrite str_rev_involutive. f_equal.
  destruct (lstrip_cases (String.rev (lstrip s))) as [->|(a & t & -> & Ha)];
    [done|by apply lstrip_nonspace].
Qed.

(** ** More on [flatten_chat_messages] *)

Lemma str_app_eq_nil (s t : string) : s +:+ t = "" → s = "" ∧ t = "".
Proof. by destruct s. Qed.

Lemma str_join_app (sep : string) (a b : list string) :
  str_join sep (a ++ b) =
  match a, b with
  | [], _ => str_join sep b
  | _, [] => str_join sep a
  | _, _ => str_join sep a +:+ sep +:+ str_join sep b
  end.
Proof.
  induction a as [|x a IH]; [done|].
  destruct b as [|y b]; [by rewrite app_nil_r|].
  destruct a as [|x' a]; [done|].
  change (x +:+ sep +:+ str_join sep ((x' :: a) ++ y :: b)
          = (x +:+ sep +:+ str_join sep (x' :: a)) +:+ sep
            +:+ str_join sep (y :: b)).
  by rewrite IH, !str_app_assoc.
Qed.

Lemma str_join_eq_nil (sep : string) (ls : list string) :
  "" ∉ ls → str_join sep ls = "" → ls = [].
Proof.
  destruct ls as [|x [|y ls]]; [done| |]; simpl.
  - intros Hn ->. exfalso. apply Hn. by left.
  - intros Hn [-> _]%str_app_eq_nil. exfalso. apply Hn. by left.
Qed.

Lemma turn_line_nonempty (m : gmap string string) : turn_line m ≠ Some "".
Proof.
  unfold turn_line. case_bool_decide as Hc; [done|].
  intros [= (_ & (_ & Hs)%str_app_eq_nil)%str_app_eq_nil]. done.
Qed.

Lemma lines_nonempty (ms : list (gmap string string)) :
  "" ∉ omap turn_line ms.
Proof.
  intros (m & _ & Hm)%list_elem_of_omap. by apply turn_line_nonempty in Hm.
Qed.

Lemma flatten_eq_nil (ms : list (gmap string string)) :
  flatten_chat_messages ms = "" ↔ omap turn_line ms = [].
Proof.
  rewrite flatten_chat_messages_spec. unfold flatten_spec. split.
  - apply str_join_eq_nil, lines_nonempty.
  - by intros ->.
Qed.

(** X16: The text of a longer conversation is the text of its first part, a line
    feed, and the text of the rest; a part that contributes no line
    contributes no line feed either. *)
Theorem flatten_chat_messages_app (a b : list (gmap string string)) :
  flatten_chat_messages (a ++ b) =
  if bool_decide (flatten_chat_messages a = "") then flatten_chat_messages b
  else if bool_decide (flatten_chat_messages b = "")
       then flatten_chat_messages a
       else flatten_chat_messages a +:+ NL +:+ flatten_chat_messages b.
Proof.
  pose proof (flatten_eq_nil a) as Ha. pose proof (flatten_eq_nil b) as Hb.
  rewrite !flatten_chat_messages_spec in *. unfold flatten_spec in *.
  rewrite omap_app, str_join_app.
  destruct (omap turn_line a) as [|x la].
  { by rewrite bool_decide_eq_true_2. }
  rewrite bool_decide_eq_false_2 by (by intros ?%Ha).
  destruct (omap turn_line b) as [|y lb].
  { by rewrite bool_decide_eq_true_2. }
  by rewrite bool_decide_eq_false_2 by (by intros ?%Hb).
Qed.

(** X17: The flattened text is empty exactly when every turn is blank after
    trimming (in particular for no turn at all). *)
Theorem flatten_chat_messages_empty_iff (ms : list (gmap string string)) :
  flatten_chat_messages ms = ""
  ↔ Forall (λ m, strip (default "" (m !! "content")) = "") ms.
Proof.
  rewrite flatten_eq_nil. induction ms as [|m ms IH]; simpl.
  - split; [by constructor|done].
  - rewrite Forall_cons, <- IH. unfold turn_line at 1.
    case_bool_decide as Hc; [by split; [|intros [_ ?]]|].
    split; [done|]. by intros [? _].
Qed.

Lemma norm_role_nonempty (role : string) : norm_role role ≠ "".
Proof. unfold norm_role. by case_bool_decide. Qed.

Lemma turn_line_message (rc : string * string) :
  has_content rc →
  turn_line (turn_message rc) = Some (norm_role rc.1 +:+ ": " +:+ strip rc.2).
Proof.
  intros Hc. unfold turn_line, turn_message.
  rewrite lookup_insert_ne, lookup_singleton_eq, lookup_insert_eq by done.
  simpl. rewrite strip_idempotent, bool_decide_eq_false_2 by done.
  pose proof (norm_role_nonempty rc.1). by destruct (norm_role rc.1).
Qed.

Lemma flatten_turn_messages (turns : list (string * string)) :
  Forall has_content turns →
  flatten_chat_messages (turn_message <$> turns) =
  str_join NL ((λ rc, norm_role rc.1 +:+ ": " +:+ strip rc.2) <$> turns).
Proof.
  intros Hall. rewrite flatten_chat_messages_spec. unfold flatten_spec.
  f_equal. induction Hall as [|rc turns Hrc _ IH]; [done|].
  csimpl. by rewrite turn_line_message, IH.
Qed.

(** X18: From a fresh aggregate session, the text submitted for the turn number
    [k] is the lines ["role: content"] of the turns up to [k], the role
    normalised and the content trimmed once, whatever the service answered
    or raised on the earlier turns. *)
Theorem aggregate_texts_are_role_content_lines {World} (lx : Oracle World)
    (turns : list (string * string)) (e : Env World) :
  Forall has_content turns →
  calls (ws_env (serve lx true (turn <$> turns) (connect e)).2) =
  calls e
  ++ ((λ k, str_join NL
              ((λ rc, norm_role rc.1 +:+ ": " +:+ strip rc.2)
               <$> take (S k) turns))
      <$> seq 0 (length turns)).
Proof.
  intros Hall.
  destruct (serve_turns_calls lx turns (connect e) Hall) as (_ & _ & ->).
  simpl. f_equal. apply list_fmap_ext. intros i k _.
  rewrite <- fmap_take. apply flatten_turn_messages.
  by apply Forall_take.
Qed.

(** ** More on the socket session *)

Section more_session.
Context {World : Type}.
Variable lx : Oracle World.
Implicit Types (s : Session World) (agg : bool) (fr : Inbound).

Lemma or_strip_cases (v : pyval) (d : string) :
  (∃ x, (x = strip d ∨ ∃ c, v = PStr c ∧ c ≠ "" ∧ x = strip c)
        ∧ ∀ s, or_strip (World := World) v d s = (Ok x, s))
  ∨ (truthy v = true ∧ (∀ c, v ≠ PStr c)
     ∧ ∀ s, or_strip (World := World) v d s
            = (Raise (AttributeError "strip"), s)).
Proof.
  unfold or_strip. destruct (truthy v) eqn:Ht.
  - destruct v; try (right; by split_and!).
    left. eexists. split; [|done]. right. eexists. split_and!; [done| |done].
    simpl in Ht. intros ->. by rewrite bool_decide_eq_true_2 in Ht.
  - left. eexists. split; [by left|done].
Qed.

(** The three ways a frame can go: an [AttributeError] leaves the loop with
    nothing changed; one note is sent and no call is made (the history being
    kept, or emptied by a reset in aggregate mode); or the frame is a turn
    with content, which costs exactly one call and is answered by the
    progress note and one result or error frame. *)
Lemma on_frame_cases agg fr :
  (∃ e, exn_class e = "AttributeError"
        ∧ ∀ s, on_frame lx agg fr s = (Raise e, s))
  ∨ (∃ note (clear : bool),
       (clear = true → agg = true)
       ∧ ∀ s, on_frame lx agg fr s =
              (Ok (), mkSession (if clear then [] else conversation_messages s)
                        (sent s ++ [note]) (ws_env s)))
  ∨ (∃ role content, content ≠ "" ∧
       ∀ s, on_frame lx agg fr s =
         let msg : gmap string string :=
           {[ "role" := role; "content" := content ]} in
         let ms := if agg then conversation_messages s ++ [msg]
                   else conversation_messages s in
         let txt := if agg then flatten_chat_messages ms else content in
         let r := lx txt (world (ws_env s)) in
         (Ok (),
          mkSession ms
            (sent s ++ [processing;
                        match r.1 with
                        | Ok doc =>
                            Payload (if agg then "aggregate_result"
                                     else "result")
                              (lx_data.text doc) (spans_of doc)
                        | Raise e => Note "error" (Some (exn_str e))
                        end])
            (mkEnv r.2 (calls (ws_env s) ++ [txt])))).
Proof.
  destruct fr as [|data].
  { right. left. exists (Note "error" (Some "invalid json")), false.
    split; [done|]. intros s. by destruct s. }
  destruct data as [| | | | |d];
    try (left; exists (AttributeError "get"); by split).
  destruct (truthy (default PNone (d !! "eot"))
            || eq_str (default PNone (d !! "type")) "eot") eqn:Hreset.
  { right. left. exists (Note "eot_ack" None), agg. split; [done|].
    intros s. unfold on_frame, data_get, mbind, M_bind, mret, M_ret.
    rewrite Hreset. by destruct agg, s. }
  destruct (or_strip_cases (default PNone (d !! "role")) "user")
    as [(r & _ & Hr)|(_ & _ & Hr)].
  2:{ left. exists (AttributeError "strip"). split; [done|]. intros s.
      unfold on_frame, data_get, mbind, M_bind, mret, M_ret.
      by rewrite Hreset, Hr. }
  destruct (or_strip_cases (default PNone (d !! "content")) "")
    as [(c & _ & Hc)|(_ & _ & Hc)].
  2:{ left. exists (AttributeError "strip"). split; [done|]. intros s.
      unfold on_frame, data_get, mbind, M_bind, mret, M_ret.
      by rewrite Hreset, Hr, Hc. }
  destruct (decide (c = "")) as [->|Hne].
  { right. left. exists (Note "warn" (Some "empty content")), false.
    split; [done|]. intros s.
    unfold on_frame, data_get, mbind, M_bind, mret, M_ret.
    rewrite Hreset, Hr, Hc. by destruct s. }
  right. right. exists (if bool_decide (r = "") then "user" else r), c.
  split; [done|]. intros s.
  unfold on_frame, data_get, mbind, M_bind, mret, M_ret.
  rewrite Hreset, Hr, Hc, bool_decide_eq_false_2 by done.
  unfold send_text, modify, try_except, gets, set_messages, modify,
    _extract_single_message, lx_call. simpl.
  destruct agg; simpl;
    destruct (lx _ _) as [[doc|e] w']; simpl; by rewrite <- app_assoc.
Qed.

Lemma serve_cons agg fr (rest : list Inbound) s :
  serve lx agg (fr :: rest) s =
  match on_frame lx agg fr s with
  | (Ok _, s1) => serve lx agg rest s1
  | (Raise e, s1) => (Raise e, s1)
  end.
Proof. done. Qed.

(** X19: A frame that is valid JSON but not an object, or an object whose role
    or content is a non-empty value other than a string, raises
    [AttributeError] out of the loop: nothing is sent for it, the session
    state is as before, and the frames after it are not served. *)
Theorem non_object_frame_ends_the_loop agg (data : pyval)
    (rest : list Inbound) s :
  ((∀ d, data ≠ PDict d)
   ∨ ∃ d v, data = PDict d ∧ is_reset d = false
            ∧ truthy v = true ∧ (∀ c, v ≠ PStr c)
            ∧ (d !! "role" = Some v
               ∨ (str_like (default PNone (d !! "role"))
                  ∧ d !! "content" = Some v))) →
  ∃ e, exn_class e = "AttributeError"
       ∧ on_frame lx agg (Parsed data) s = (Raise e, s)
       ∧ serve lx agg (Parsed data :: rest) s = (Raise e, s).
Proof.
  intros Hbad.
  assert (∃ e, exn_class e = "AttributeError"
               ∧ on_frame lx agg (Parsed data) s = (Raise e, s))
    as (e & He & Hon).
  { destruct Hbad as [Hnd|(d & v & -> & Hreset & Ht & Hns & Hwhere)].
    { exists (AttributeError "get"). split; [done|].
      destruct data; try done. by edestruct Hnd. }
    exists (AttributeError "strip"). split; [done|].
    unfold is_reset in Hreset.
    unfold on_frame, data_get, mbind, M_bind, mret, M_ret. rewrite Hreset.
    destruct Hwhere as [Hrole|[Hrole Hcontent]].
    - rewrite Hrole. simpl. unfold or_strip. rewrite Ht.
      destruct v; try done. by edestruct Hns.
    - destruct (or_strip_cases (default PNone (d !! "role")) "user")
        as [(r & _ & ->)|(Htr & Hnr & _)].
      + rewrite Hcontent. simpl. unfold or_strip. rewrite Ht.
        destruct v; try done. by edestruct Hns.
      + destruct Hrole as [Hf|[c Hc]]; [congruence|]. by edestruct Hnr. }
  exists e. split_and!; [done..|]. by rewrite serve_cons, Hon.
Qed.


(** A turn with content, in either mode. *)
Lemma on_frame_turn agg (rc : string * string) s :
  has_content rc →
  on_frame lx agg (turn rc) s =
  let ms := if agg then conversation_messages s ++ [turn_message rc]
            else conversation_messages s in
  let txt := if agg then flatten_chat_messages ms else strip rc.2 in
  let r := lx txt (world (ws_env s)) in
  (Ok (),
   mkSession ms
     (sent s ++ [processing;
                 match r.1 with
                 | Ok doc =>
                     Payload (if agg then "aggregate_result" else "result")
                       (lx_data.text doc) (spans_of doc)
                 | Raise e => Note "error" (Some (exn_str e))
                 end])
     (mkEnv r.2 (calls (ws_env s) ++ [txt]))).
Proof.
  intros Hc. destruct agg; [by apply on_frame_turn_aggregate|].
  unfold has_content in Hc.
  unfold on_frame, turn, data_get. rewrite !turn_lookup. simpl.
  unfold mbind, M_bind, mret, M_ret. simpl.
  rewrite or_strip_role, or_strip_content.
  rewrite (bool_decide_eq_false_2 (strip rc.2 = "")) by done.
  unfold send_text, modify, try_except, _extract_single_message, lx_call.
  simpl. destruct (lx _ _) as [[doc|e] w']; simpl; by rewrite <- app_assoc.
Qed.

(** X21: Turns with content never end the session, whatever the service does:
    each costs exactly one call and is answered by exactly two frames, and
    in aggregate mode every turn, also one whose extraction failed, stays in
    the history. *)
Theorem session_survives_failed_extractions agg
    (turns : list (string * string)) s :
  Forall has_content turns →
  let s' := (serve lx agg (turn <$> turns) s).2 in
  (serve lx agg (turn <$> turns) s).1 = Ok ()
  ∧ length (sent s') = length (sent s) + 2 * length turns
  ∧ length (calls (ws_env s')) = length (calls (ws_env s)) + length turns
  ∧ conversation_messages s' =
      if agg then conversation_messages s ++ (turn_message <$> turns)
      else conversation_messages s.
Proof.
  revert s. induction turns as [|rc turns IH]; intros s Hall; cbv zeta.
  - simpl. split_and!; [done|lia|lia|]. destruct agg; [|done].
    by rewrite app_nil_r.
  - apply Forall_cons in Hall as [Hrc Hall].
    rewrite fmap_cons, serve_cons, on_frame_turn by done. cbv beta iota zeta.
    set (s1 := mkSession _ _ _).
    destruct (IH s1 Hall) as (Hok & Hsent & Hcalls & Hms).
    split_and!; [done| | |].
    + rewrite Hsent. simpl. rewrite !length_app. simpl. lia.
    + rewrite Hcalls. simpl. rewrite !length_app. simpl. lia.
    + rewrite Hms. simpl. destruct agg; [|done]. by rewrite <- app_assoc.
Qed.

(** X22: In single-shot mode no frame ever changes the history, and what a frame
    does (what is sent for it, what it costs, how it ends) does not depend
    on the history nor on the frames sent before, only on the service. *)
Theorem single_shot_keeps_no_history (frames : list Inbound) s :
  conversation_messages (serve lx false frames s).2 = conversation_messages s
  ∧ ∀ fr s1 s2, ws_env s1 = ws_env s2 →
      (on_frame lx false fr s1).1 = (on_frame lx false fr s2).1
      ∧ ws_env (on_frame lx false fr s1).2 = ws_env (on_frame lx false fr s2).2
      ∧ ∃ out, sent (on_frame lx false fr s1).2 = sent s1 ++ out
               ∧ sent (on_frame lx false fr s2).2 = sent s2 ++ out.
Proof.
  split.
  - revert s. induction frames as [|fr frames IH]; intros s; [done|].
    rewrite serve_cons.
    destruct (on_frame_cases false fr)
      as [(e & _ & ->)|[(note & clear & Hcl & ->)|(r & c & _ & ->)]];
      [done| |].
    + cbv beta iota. rewrite IH. simpl. destruct clear; [|done].
      by discriminate Hcl.
    + cbv beta iota zeta. by rewrite IH.
  - intros fr s1 s2 Henv.
    destruct (on_frame_cases false fr)
      as [(e & _ & Hf)|[(note & clear & Hcl & Hf)|(r & c & _ & Hf)]];
      rewrite !Hf; simpl.
    + split_and!; [done..|]. exists []. by rewrite !app_nil_r.
    + split_and!; [done..|]. by eexists.
    + rewrite Henv. split_and!; [done..|]. by eexists.
Qed.

(** X23: Accounting of a session in either mode: nothing sent is ever taken back,
    a frame costs at most one call and at most two answers, and when the
    loop has not been left by an exception every frame was answered once,
    plus once more for each call made. *)
Theorem frame_accounting agg (frames : list Inbound) s :
  let s' := (serve lx agg frames s).2 in
  sent s `prefix_of` sent s'
  ∧ calls (ws_env s) `prefix_of` calls (ws_env s')
  ∧ (length (calls (ws_env s')) ≤ length (calls (ws_env s)) + length frames)%nat
  ∧ (length (sent s') ≤ length (sent s) + 2 * length frames)%nat
  ∧ ((serve lx agg frames s).1 = Ok () →
     length (sent s') + length (calls (ws_env s))
     = length (sent s) + length frames + length (calls (ws_env s'))).
Proof.
  revert s. induction frames as [|fr frames IH]; intros s; cbv zeta.
  { simpl. split_and!; [done|done|lia|lia|lia]. }
  rewrite serve_cons.
  destruct (on_frame_cases agg fr)
    as [(e & _ & ->)|[(note & clear & Hcl & ->)|(r & c & _ & ->)]];
    cbv zeta.
  - simpl. split_and!; [done|done|lia|lia|done].
  - set (s1 := mkSession _ _ _).
    destruct (IH s1) as (Hs & Hc & Hlc & Hls & Hex). subst s1. simpl in *.
    rewrite length_app in *. simpl in *.
    split_and!; [|done|lia|lia|].
    + etrans; [|done]. by apply prefix_app_r.
    + intros Hok. specialize (Hex Hok). lia.
  - set (s1 := mkSession _ _ _).
    destruct (IH s1) as (Hs & Hc & Hlc & Hls & Hex). subst s1. simpl in *.
    rewrite !length_app in *. simpl in *.
    split_and!; [| |lia|lia|].
    + etrans; [|done]. by apply prefix_app_r.
    + etrans; [|done]. by apply prefix_app_r.
    + intros Hok. specialize (Hex Hok). lia.
Qed.

End more_session.

(** ** Every call is over the whole transcript *)

Section whole_transcript.
Context {World : Type}.
Variable lx : Oracle World.
Implicit Types (p : Proc World) (ops : list Op).

Lemma run_op_calls (op : Op) p :
  calls (env (run_op lx op p).2) = calls (env p)
  ∨ calls (env (run_op lx op p).2) =
      calls (env p) ++ [str_join NL (_transcript (self p) ++ pushed [op])].
Proof.
  rewrite run_op_state. destruct op as [c|]; unfold pushed; simpl.
  - destruct (decide (c = "")) as [->|Hne]; [left; by rewrite push_empty|].
    rewrite bool_decide_eq_false_2, app_nil_r by done.
    destruct (decide (below_half (self p) c)).
    + left. rewrite push_state by done. by rewrite decide_True.
    + right. by apply push_calls_triggered.
  - rewrite app_nil_r, flush_unfold. destruct (_buffer (self p)); [by left|].
    right. apply extract_and_merge_calls.
Qed.

(** X8: In any run, every text submitted to the service is the transcript as it
    stood at that moment, joined by line feeds: the initial transcript
    followed by the first [k] non-empty fragments pushed, for some [k]. *)
Theorem every_call_is_over_the_whole_transcript ops p :
  ∃ texts,
    calls (env (run_ops lx ops p).2) = calls (env p) ++ texts
    ∧ ∀ t, t ∈ texts →
        ∃ k, t = str_join NL (_transcript (self p) ++ take k (pushed ops)).
Proof.
  revert p. induction ops as [|op ops IH]; intros p.
  { exists []. split; [by rewrite app_nil_r|]. intros t Ht.
    by apply elem_of_nil in Ht. }
  rewrite run_ops_cons.
  assert (pushed (op :: ops) = pushed [op] ++ pushed ops) as Hpushed.
  { unfold pushed. simpl. by rewrite app_nil_r. }
  destruct (run_op_effect lx op p) as (_ & Ht & _).
  assert (∃ first,
            calls (env (run_op lx op p).2) = calls (env p) ++ first
            ∧ ∀ t, t ∈ first →
                t = str_join NL (_transcript (self p) ++ pushed [op]))
    as (first & Hfirst & Hin).
  { destruct (run_op_calls op p) as [Hc|Hc].
    - exists []. split; [by rewrite app_nil_r|]. intros t Hin.
      by apply elem_of_nil in Hin.
    - eexists. split; [done|]. by intros t ->%list_elem_of_singleton. }
  assert (∀ t, t ∈ first →
            ∃ k, t = str_join NL (_transcript (self p)
                                  ++ take k (pushed (op :: ops)))) as Hin'.
  { intros t ->%Hin. exists (length (pushed [op])).
    by rewrite Hpushed, take_app_length. }
  destruct (run_op lx op p).1.
  - destruct (IH (run_op lx op p).2) as (texts & Hcalls & Htexts).
    exists (first ++ texts). split.
    + by rewrite Hcalls, Hfirst, app_assoc.
    + intros t [Hf|Hr]%elem_of_app; [by apply Hin'|].
      destruct (Htexts t Hr) as [k ->]. exists (length (pushed [op]) + k).
      by rewrite Ht, Hpushed, take_app_add, <- app_assoc.
  - by exists first.
Qed.

End whole_transcript.

(** ** More on the request-response endpoint *)

Lemma blank_turns_give_no_line (ms : list rest_api.Message) :
  Forall (λ m, strip (rest_api.content m) = "") ms →
  flatten_chat_messages (rest_api.model_dump <$> ms) = "".
Proof.
  intros Hall. apply flatten_eq_nil.
  induction Hall as [|m ms Hm _ IH]; [done|]. csimpl.
  assert (rest_api.model_dump m !! "content" = Some (rest_api.content m))
    as Hc by (unfold rest_api.model_dump; by simplify_map_eq).
  unfold turn_line at 1. rewrite Hc. simpl.
  by rewrite bool_decide_eq_true_2.
Qed.

Section more_endpoint.
Context {World : Type}.
Variable lx : Oracle World.

(** X24: The outcomes of [extract_endpoint]: it fails with status 400 exactly
    for a request without turns (nothing called), with status 500 and the
    text of the exception when the one extraction call raises, and otherwise
    answers with the model id of the request, the text of the document (the
    flattened text when the document has none) and one span per extraction,
    in order; it never makes more than one call. *)
Theorem rest_outcomes (payload : rest_api.ExtractRequest) (e : Env World) :
  let txt := flatten_chat_messages
               (rest_api.model_dump <$> rest_api.messages payload) in
  let out := rest_api.extract_endpoint lx payload e in
  (∀ h, out.1 = inl h →
     (rest_api.status_code h = 400%Z ∧ rest_api.messages payload = []
      ∧ out.2 = e)
     ∨ (rest_api.status_code h = 500%Z ∧ rest_api.messages payload ≠ []
        ∧ ∃ ex, (lx txt (world e)).1 = Raise ex
                ∧ rest_api.detail h = exn_str ex))
  ∧ (∀ r, out.1 = inr r →
       rest_api.messages payload ≠ []
       ∧ ∃ doc, (lx txt (world e)).1 = Ok doc
                ∧ rest_api.resp_model_id r = rest_api.model_id payload
                ∧ rest_api.resp_text r = str_or (lx_data.text doc) txt
                ∧ rest_api.resp_extractions r
                  = to_span <$> default [] (extractions doc))
  ∧ (rest_api.messages payload ≠ [] →
       out.2 = mkEnv (lx txt (world e)).2 (calls e ++ [txt])).
Proof.
  intros txt out. subst out txt. unfold rest_api.extract_endpoint, lx_call.
  destruct (rest_api.messages payload) as [|m ms] eqn:Hms.
  { split_and!; [|done..]. intros h [= <-]. by left. }
  simpl. destruct (lx _ _) as [[doc|ex] w'] eqn:Hlx; simpl.
  - split_and!; [done| |done]. intros r [= <-]. split; [done|].
    by exists doc.
  - split_and!; [|done..]. intros h [= <-]. right.
    split_and!; [done..|]. by exists ex.
Qed.

(** X25: A request whose turns are all blank is not refused as empty: the
    extraction is called once, on the empty text, so the request cannot
    fail with status 400. *)
Theorem rest_blank_request_is_extracted (payload : rest_api.ExtractRequest)
    (e : Env World) :
  rest_api.messages payload ≠ [] →
  Forall (λ m, strip (rest_api.content m) = "") (rest_api.messages payload) →
  calls (rest_api.extract_endpoint lx payload e).2 = calls e ++ [""]
  ∧ ∀ h, (rest_api.extract_endpoint lx payload e).1 = inl h →
         rest_api.status_code h = 500%Z.
Proof.
  intros Hne Hblank. unfold rest_api.extract_endpoint, lx_call.
  destruct (rest_api.messages payload) as [|m ms] eqn:Hms; [done|].
  rewrite (blank_turns_give_no_line (m :: ms) Hblank). simpl.
  destruct (lx _ _) as [[doc|ex] w']; simpl; split; try done.
  by intros h [= <-].
Qed.

End more_endpoint.

(** ** Concrete runs of the further statements *)

Lemma _merge_drops_only_for_cause_witness :
  (key span_BC ∈ (key <$> _merge [span_AB] [span_BC])
   ∨ ∃ r, r ∈ _merge [span_AB] [span_BC] ∧ overlaps span_BC r = true)
  ∧ (char_interval span_BC = None →
     key span_BC ∈ (key <$> _merge [span_AB] [span_BC])).
Proof. apply (_merge_drops_only_for_cause [span_AB] [span_BC]). by left. Defined.

Lemma merged_spans_distinct_and_disjoint_witness :
  key span_AB ≠ key span_D ∧ overlaps span_AB span_D = false.
Proof.
  apply (merged_spans_distinct_and_disjoint [] [span_AB; span_D] 0 1);
    [|done|by vm_compute..].
  split; by constructor.
Defined.

Lemma merged_set_over_runs_witness :
  merged_set_ok
    (_merged (self (run_ops scripted [Push "AB"; Push "C"]
                      overlap_run_start).2))
  ∧ _merged (self overlap_run_start)
    `prefix_of` _merged (self (run_ops scripted [Push "AB"; Push "C"]
                                 overlap_run_start).2).
Proof.
  apply (merged_set_over_runs scripted [Push "AB"; Push "C"] overlap_run_start).
  split; by constructor.
Defined.

Lemma buffer_and_transcript_over_runs_witness :
  buffer_ok (self (run_ops scripted [Push "AB"; Push ""; Flush]
                     overlap_run_start).2)
  ∧ _max_char_buffer (self (run_ops scripted [Push "AB"; Push ""; Flush]
                              overlap_run_start).2)
    = _max_char_buffer (self overlap_run_start)
  ∧ _transcript (self overlap_run_start)
    `prefix_of` _transcript (self (run_ops scripted [Push "AB"; Push ""; Flush]
                                     overlap_run_start).2).
Proof.
  apply (buffer_and_transcript_over_runs scripted [Push "AB"; Push ""; Flush]
           overlap_run_start).
  split; [done|]. simpl. by intros ?%elem_of_nil.
Defined.

Lemma transcript_of_run_witness :
  _transcript (self (run_ops scripted [Push "AB"; Push ""; Push "C"]
                       overlap_run_start).2)
  = _transcript (self overlap_run_start)
    ++ pushed [Push "AB"; Push ""; Push "C"]
  ∧ length [[span_AB]; []; [span_BC]] = length [Push "AB"; Push ""; Push "C"].
Proof.
  apply (transcript_of_run scripted [Push "AB"; Push ""; Push "C"]
           overlap_run_start).
  by vm_compute.
Defined.

Lemma delta_covers_merge_witness :
  (∃ added,
     _merged (self (flush scripted pending_start).2)
     = _merged (self pending_start) ++ added
     ∧ added `sublist_of` [span_AB])
  ∧ ∀ e, e ∈ [span_AB] → key e ∉ (key <$> _merged (self pending_start)).
Proof.
  apply (proj1 (delta_covers_merge scripted pending_start)). by vm_compute.
Defined.

Lemma delta_exact_when_clean_witness :
  ∃ delta p',
    flush scripted pending_start = (Ok delta, p')
    ∧ _merged (self p') = _merged (self pending_start) ++ delta
    ∧ delta `sublist_of` [span_AB].
Proof.
  apply (delta_exact_when_clean scripted pending_start
           (mkAnnotatedDocument None (Some [span_AB])) []); [done|done|].
  split_and!.
  - apply NoDup_singleton.
  - split; by constructor.
  - simpl. by intros c m _ ?%elem_of_nil.
Defined.

Lemma push_large_fragment_extracts_witness :
  calls (env (push scripted "ABCDEFG" roomy_start).2)
  = calls (env roomy_start)
    ++ [str_join NL (_transcript (self roomy_start) ++ ["ABCDEFG"])].
Proof.
  apply (push_large_fragment_extracts scripted roomy_start "ABCDEFG");
    [done|]. left. by vm_compute.
Defined.

Lemma arun_async_yields_nonempty_witness :
  _buffer (self (arun_async scripted ["AB"; "C"] overlap_run_start).2) = [].
Proof.
  apply (proj2 (arun_async_yields_nonempty scripted ["AB"; "C"]
                  overlap_run_start)).
  by vm_compute.
Defined.

Lemma caller_params_take_precedence_witness :
  init_lm_params (Some 1%Z) (Some "http://proxy:11434")
    (Some caller_temperature) !! "temperature" = Some (VFloat 7%Z)
  ∧ init_lm_params (Some 1%Z) (Some "http://proxy:11434")
      (Some caller_temperature) !! "base_url"
    = Some (VStr "http://proxy:11434").
Proof.
  destruct (caller_params_take_precedence (Some 1%Z)
              (Some "http://proxy:11434") (Some caller_temperature))
    as (Hkeep & _ & Hurl & _).
  split.
  - by apply Hkeep.
  - apply (Hurl "http://proxy:11434" "base_url"); [done|done|by right|done].
Defined.

Lemma api_key_from_environment_witness :
  (∃ v, v ≠ "" ∧ _env_api_key_for only_fallback_key "gemini-2.5-flash"
                 !! "api_key" = Some (Some v))
  ∧ _env_api_key_for only_fallback_key "gemma2:2b" !! "api_key"
    = Some (only_fallback_key !! "LANGEXTRACT_API_KEY").
Proof.
  split.
  - by apply (proj1 (proj2 (api_key_from_environment only_fallback_key
                              "gemini-2.5-flash")) "k").
  - by apply (api_key_from_environment only_fallback_key "gemma2:2b").
Defined.

Lemma aggregate_texts_are_role_content_lines_witness :
  calls (ws_env (serve scripted true (turn <$> [("", " hello "); ("bot", "hi")])
                   fresh_session).2)
  = ["user: hello"; "user: hello" +:+ NL +:+ "bot: hi"].
Proof.
  unfold fresh_session.
  rewrite (aggregate_texts_are_role_content_lines scripted
             [("", " hello "); ("bot", "hi")]
             (mkEnv [Raise boom; answer [span_AB]] [])).
  - by vm_compute.
  - repeat constructor; unfold has_content; by vm_compute.
Defined.

Lemma non_object_frame_ends_the_loop_witness :
  ∃ e, exn_class e = "AttributeError"
       ∧ on_frame scripted true (Parsed (PInt 5)) fresh_session
         = (Raise e, fresh_session)
       ∧ serve scripted true (Parsed (PInt 5) :: [turn ("user", "a")])
           fresh_session
         = (Raise e, fresh_session).
Proof.
  apply (non_object_frame_ends_the_loop scripted true (PInt 5)
           [turn ("user", "a")] fresh_session).
  left. by intros d.
Defined.


Lemma session_survives_failed_extractions_witness :
  (serve scripted true (turn <$> [("user", "a"); ("user", "b")])
     fresh_session).1 = Ok ()
  ∧ conversation_messages
      (serve scripted true (turn <$> [("user", "a"); ("user", "b")])
         fresh_session).2
    = turn_message <$> [("user", "a"); ("user", "b")].
Proof.
  destruct (session_survives_failed_extractions scripted true
              [("user", "a"); ("user", "b")] fresh_session)
    as (Hok & _ & _ & Hms).
  - repeat constructor; unfold has_content; by vm_compute.
  - by split.
Defined.

Lemma single_shot_keeps_no_history_witness :
  (on_frame scripted false (turn ("user", "a")) served_once).1
  = (on_frame scripted false (turn ("user", "a"))
       (mkSession [] [] (ws_env served_once))).1.
Proof.
  by apply (proj2 (single_shot_keeps_no_history scripted [] served_once)
              (turn ("user", "a")) served_once
              (mkSession [] [] (ws_env served_once))).
Defined.

Lemma frame_accounting_witness :
  length (sent (serve scripted true [BadJson; turn ("user", "a")]
                  fresh_session).2)
  + length (calls (ws_env fresh_session))
  = length (sent fresh_session) + 2
    + length (calls (ws_env (serve scripted true [BadJson; turn ("user", "a")]
                               fresh_session).2)).
Proof.
  by apply (frame_accounting scripted true [BadJson; turn ("user", "a")]
              fresh_session).
Defined.

Lemma rest_outcomes_witness :
  (rest_api.extract_endpoint scripted two_turns (mkEnv [Raise boom] [])).2
  = mkEnv [] ["user: first"].
Proof.
  by rewrite (proj2 (proj2 (rest_outcomes scripted two_turns
                              (mkEnv [Raise boom] []))) ltac:(done)).
Defined.

Lemma rest_blank_request_is_extracted_witness :
  calls (rest_api.extract_endpoint scripted blank_request
           (mkEnv [answer []] [])).2 = [""].
Proof.
  apply (rest_blank_request_is_extracted scripted blank_request
           (mkEnv [answer []] [])); [done|].
  by repeat constructor.
Defined.
